(** * mesos_client_service: waiting for a Mesos agent to register

    A shallow embedding of [mesos_client_service.go] and the properties of
    its leader discovery, bounded polling and cooperative cancellation.

    Layout of the development:
    - the JSON data model ([MesosState] and its parts);
    - the sequential code ([queryMesosState], [isSlaveRegistered]) as
      programs of a small effect monad [Prog], whose effects are the calls
      the Go code makes into the standard library (console output,
      [http.NewRequest], [client.Do]) and whose abnormal ends are the
      runtime panic and [os.Exit];
    - the two goroutines ([asyncQueryRegistration] and
      [waitForMesosSlaveRegistration]) as one-statement step functions over
      a system state that holds both buffered channels, the two timers, the
      clock and the history of what happened;
    - the theorems.

    What is idealised.  Library code is not part of the repository and is
    represented by its results: a [World] says which URLs [http.NewRequest]
    accepts and what the n-th call of [client.Do] yields, and a response
    body is represented by what the JSON decoder makes of it.  A call of
    [client.Do] is one event with one answer: what the [http.Client] puts
    on the wire inside that call (the client of lines 82-84 sets no
    [CheckRedirect], so the library follows redirects by itself) is not
    represented, and the statements below count calls of [client.Do], not
    requests on the wire.  The
    transport's dial and handshake time limits only influence when (and
    whether) [client.Do] answers, which the schedule of a run decides.  Time
    is counted in nanoseconds, as [time.Duration] does; a timer fires at
    the instant the clock reaches its deadline, and a goroutine blocked in a
    [select] is released by the first event that makes one of its cases
    ready.  Goroutines themselves may run arbitrarily late, and an answer
    to [client.Do] may take arbitrarily long: a run is an arbitrary list of
    [Action]s.  [main] (flag parsing and the final Println) is left out;
    [deferred] closing of the response body has no effect on what is
    stated here and is left out too. *)

From Stdlib Require Import Floats String Ascii ZArith List Bool Lia Permutation.
Import ListNotations.
Local Open Scope string_scope.
Local Open Scope Z_scope.

Set Implicit Arguments.

(** ** Data model (the structs decoded from the /state document) *)

Record MesosSlaveAttributes : Type := {
  Host : string;
  InstanceType : string;
  PublicIP : string;
  Rack : string;
  PrivateIP : string
}.

Record MesosSlave : Type := {
  IsActive : bool;
  MesosPid : string;
  Attributes : MesosSlaveAttributes;
  RegisteredTime : float
}.

Record MesosState : Type := {
  ElectedTime : float;
  Leader : string;
  Pid : string;
  Slaves : list MesosSlave
}.

(** ** The parts of the Go standard library the code calls *)

(** The three places an [error] value can come from. *)
Inductive error : Type :=
| NewRequestError
| TransportError
| DecodeError.

(** Run-time panics: [panic(err)] and the ones the run-time system raises. *)
Inductive panic : Type :=
| PanicError (err : error)
| IndexOutOfRange
| NilDereference
| SendOnClosedChannel
| CloseOfClosedChannel.

Record Request : Type := {
  Method : string;
  URL : string;
  RequestBody : string
}.

(** A response body is represented by what [json.Decoder.Decode] makes of
    it: a document that fills a [MesosState], or one that does not decode. *)
Inductive ResponseBody : Type :=
| NotJSON
| JSON (s : MesosState).

Record Response : Type := {
  Status : string;
  Body : ResponseBody
}.

Definition Decode (b : ResponseBody) : MesosState + error :=
  match b with
  | JSON s => inl s
  | NotJSON => inr DecodeError
  end.

(** The outside world: which URLs [http.NewRequest] rejects, and what the
    [n]-th call of [client.Do] (counted from 0) comes back with, that is,
    the answer the client hands back in the end. *)
Record World : Type := {
  rejectsURL : string -> bool;
  roundTrip : nat -> Request -> Response + error
}.

Definition newRequest (w : World) (method url body : string) : Request + error :=
  if rejectsURL w url then inr NewRequestError
  else inl {| Method := method; URL := url; RequestBody := body |}.

Definition nl : string := String (ascii_of_nat 10) EmptyString.

(** [strings.Split(s, sep)] for a one-character separator: the pieces of
    [s] between the occurrences of [sep]; a string without [sep] is its own
    single piece. *)
Fixpoint Split (s : string) (sep : ascii) : list string :=
  match s with
  | EmptyString => [EmptyString]
  | String c rest =>
      if Ascii.eqb c sep then EmptyString :: Split rest sep
      else match Split rest sep with
           | piece :: pieces => String c piece :: pieces
           | [] => [String c EmptyString]
           end
  end.

Definition at_sign : ascii := "@"%char.

(** What is written to the console. *)
Inductive Output : Type :=
| Text (s : string)
| ErrorText (err : error).

(** ** The effect monad of the sequential code *)

Inductive Prog (A : Type) : Type :=
| Ret (a : A)
| Panic (p : panic)
| Exit (code : Z)
| Print (o : Output) (k : Prog A)
| NewRequest (method url body : string) (k : Request + error -> Prog A)
| ClientDo (req : Request) (k : Response + error -> Prog A).

Arguments Ret {A} a.
Arguments Panic {A} p.
Arguments Exit {A} code.
Arguments Print {A} o k.
Arguments NewRequest {A} method url body k.
Arguments ClientDo {A} req k.

Fixpoint bind {A B : Type} (p : Prog A) (f : A -> Prog B) : Prog B :=
  match p with
  | Ret a => f a
  | Panic x => Panic x
  | Exit c => Exit c
  | Print o k => Print o (bind k f)
  | NewRequest m u b k => NewRequest m u b (fun r => bind (k r) f)
  | ClientDo req k => ClientDo req (fun r => bind (k r) f)
  end.

Declare Scope prog_scope.
Delimit Scope prog_scope with prog.
Notation "x <- p ;; q" := (bind p (fun x => q))
  (at level 61, p at next level, right associativity) : prog_scope.
Notation "' pat <- p ;; q" := (bind p (fun x => let 'pat := x in q))
  (at level 61, pat pattern, p at next level, right associativity) : prog_scope.
Notation "p ;; q" := (bind p (fun _ => q))
  (at level 61, right associativity) : prog_scope.
Local Open Scope prog_scope.

Definition Printf (s : string) : Prog unit := Print (Text s) (Ret tt).
Definition Println (err : error) : Prog unit := Print (ErrorText err) (Ret tt).

(** Following a [*MesosState]: a nil pointer panics. *)
Definition deref (ptr : option MesosState) : Prog MesosState :=
  match ptr with
  | Some s => Ret s
  | None => Panic NilDereference
  end.

(** Indexing a slice: out of range panics. *)
Definition index (pieces : list string) (i : nat) : Prog string :=
  match nth_error pieces i with
  | Some piece => Ret piece
  | None => Panic IndexOutOfRange
  end.

(** ** queryMesosState (lines 72-103) *)

Definition queryMesosState (url : string)
  : Prog (option MesosState * option error) :=
  Printf ("Querying mesos endpoint @:" ++ url ++ nl) ;;
  r <- NewRequest "POST" url EmptyString (fun r => Ret r) ;;
  match r with
  | inr err => Panic (PanicError err)
  | inl httpReq =>
      r' <- ClientDo httpReq (fun r' => Ret r') ;;
      match r' with
      | inr err => Panic (PanicError err)
      | inl httpResp =>
          Printf ("HTTP Response Code: '" ++ Status httpResp ++ "'" ++ nl) ;;
          match Decode (Body httpResp) with
          | inr err => Ret (None, Some err)
          | inl mesosState => Ret (Some mesosState, None)
          end
      end
  end.

(** ** isSlaveRegistered (lines 105-134) *)

(** The loop of lines 128-133. *)
Fixpoint scanSlaves (slaves : list MesosSlave) (agentIP : string) : bool :=
  match slaves with
  | [] => false
  | slave :: rest =>
      if String.eqb (PrivateIP (Attributes slave)) agentIP then true
      else scanSlaves rest agentIP
  end.

(** The condition of line 116. *)
Definition isFollowerView (s : MesosState) : bool :=
  PrimFloat.eqb (ElectedTime s) 0%float && negb (String.eqb (Leader s) (Pid s)).

(** The condition of lines 123-124. *)
Definition isLeaderView (s : MesosState) : bool :=
  negb (PrimFloat.eqb (ElectedTime s) 0%float) && String.eqb (Leader s) (Pid s).

Definition stateURL (hostPort apiEndpoint : string) : string :=
  "http://" ++ hostPort ++ "/" ++ apiEndpoint.

Definition isSlaveRegistered (mesosHostPort mesosApiEndpoint agentIP : string)
  : Prog bool :=
  let url := stateURL mesosHostPort mesosApiEndpoint in
  '(stateData, err) <- queryMesosState url ;;
  match err with
  | Some e => Println e ;; Exit 1
  | None =>
      first <- deref stateData ;;
      '(stateData, err) <-
         (if isFollowerView first then
            newHostPort <- index (Split (Leader first) at_sign) 1 ;;
            let url := stateURL newHostPort mesosApiEndpoint in
            queryMesosState url
          else
            Ret (stateData, err)) ;;
      resolved <- deref stateData ;;
      Ret (scanSlaves (Slaves resolved) agentIP)
  end.

(** ** Running a program against a world *)

Record Net : Type := {
  sent : list Request;      (* requests handed to client.Do, oldest first *)
  stdout : list Output      (* console output, oldest first *)
}.

Definition quiet : Net := {| sent := []; stdout := [] |}.

Definition say (o : Output) (n : Net) : Net :=
  {| sent := sent n; stdout := stdout n ++ [o] |}.

Definition send (req : Request) (n : Net) : Net :=
  {| sent := sent n ++ [req]; stdout := stdout n |}.

Inductive Outcome (A : Type) : Type :=
| Returned (a : A)
| Panicked (p : panic)
| Exited (code : Z).

Arguments Returned {A} a.
Arguments Panicked {A} p.
Arguments Exited {A} code.

Fixpoint run {A : Type} (w : World) (p : Prog A) (n : Net) : Outcome A * Net :=
  match p with
  | Ret a => (Returned a, n)
  | Panic x => (Panicked x, n)
  | Exit c => (Exited c, n)
  | Print o k => run w k (say o n)
  | NewRequest m u b k => run w (k (newRequest w m u b)) n
  | ClientDo req k =>
      run w (k (roundTrip w (length (sent n)) req)) (send req n)
  end.

(** ** Channels of booleans (make(chan bool, n)) *)

Record Chan : Type := {
  buf : list bool;       (* pending values, oldest first *)
  cap : nat;
  closed : bool
}.

Definition make (n : nat) : Chan := {| buf := []; cap := n; closed := false |}.

(** A receive can proceed: a value is pending, or the channel is closed. *)
Definition ready (c : Chan) : bool :=
  match buf c with
  | [] => closed c
  | _ :: _ => true
  end.

(** [<-c] when it can proceed: the oldest pending value, or the zero value
    of a closed and drained channel. *)
Definition recv (c : Chan) : option (bool * Chan) :=
  match buf c with
  | v :: rest => Some (v, {| buf := rest; cap := cap c; closed := closed c |})
  | [] => if closed c then Some (false, c) else None
  end.

Inductive SendResult : Type :=
| SendOk (c : Chan)
| SendBlocks
| SendPanics.

(** [c <- v] with no receiver waiting. *)
Definition trySend (v : bool) (c : Chan) : SendResult :=
  if closed c then SendPanics
  else if (length (buf c) <? cap c)%nat
       then SendOk {| buf := buf c ++ [v]; cap := cap c; closed := false |}
       else SendBlocks.

(** [close(c)]; [None] is the panic of closing twice. *)
Definition tryClose (c : Chan) : option Chan :=
  if closed c then None
  else Some {| buf := buf c; cap := cap c; closed := true |}.

(** ** The two goroutines *)

Definition Second : Z := 1000000000.

(** Where the polling goroutine stands in [asyncQueryRegistration]. *)
Inductive LoopPc : Type :=
| LNotStarted                         (* the go statement has not run yet *)
| LCall                               (* line 143: top of the for body *)
| LRun (p : Prog bool)                (* inside isSlaveRegistered *)
| LAwait (n : nat) (req : Request) (k : Response + error -> Prog bool)
                                      (* client.Do has not answered yet *)
| LSend                               (* line 146: out <- isRegistered *)
| LSelect                             (* line 148: entering the select *)
| LParked (deadline : Z)              (* blocked in the select *)
| LDone                               (* lines 149-155: case <-done *)
| LCheck (exitFor : bool)             (* line 161 *)
| LReturned.

(** The case the supervisor's select took. *)
Inductive SupCase : Type :=
| GotState (v : bool)                 (* line 181: isRegistered = <-stateChan *)
| TimedOut.                           (* line 183: <-time.After(90s) *)

(** Where the caller stands in [waitForMesosSlaveRegistration]. *)
Inductive SupPc : Type :=
| SStart                              (* lines 171-178 *)
| SSelect                             (* line 180: entering the select *)
| SParked (deadline : Z)              (* blocked in the select *)
| SCase (c : SupCase)                 (* line 182 or 184 *)
| SSignal (isRegistered : bool)       (* line 186: doneChan <- true *)
| SClose (isRegistered : bool)        (* line 187: close(doneChan) *)
| SReturned (isRegistered : bool).    (* line 188 *)

Inductive Proc : Type :=
| Running
| Crashed (p : panic)
| ExitStatus (code : Z).

(** What happened, for the record. *)
Inductive Event : Type :=
| TickStarted                         (* isSlaveRegistered called *)
| Issued (req : Request)              (* client.Do called *)
| Delivered (v : bool)                (* a send on stateChan completed *)
| OutClosed                           (* close(out) *)
| LoopWoke (byDone : bool)            (* the loop's select took a case *)
| Decided (c : SupCase)               (* the supervisor's select took a case *)
| Signalled                           (* the send on doneChan completed *)
| DoneClosed.                         (* close(doneChan) *)

Record Sys : Type := {
  now : Z;                            (* nanoseconds *)
  proc : Proc;
  net : Net;
  stateChan : Chan;
  doneChan : Chan;
  supTimer : option Z;                (* deadline of time.After(90s) *)
  loop : LoopPc;
  sup : SupPc;
  history : list (Z * Event)          (* newest first *)
}.

Definition initial : Sys :=
  {| now := 0; proc := Running; net := quiet;
     stateChan := make 0; doneChan := make 0; supTimer := None;
     loop := LNotStarted; sup := SStart; history := [] |}.

Definition with_now (t : Z) (st : Sys) : Sys :=
  {| now := t; proc := proc st; net := net st; stateChan := stateChan st;
     doneChan := doneChan st; supTimer := supTimer st; loop := loop st;
     sup := sup st; history := history st |}.

Definition with_proc (p : Proc) (st : Sys) : Sys :=
  {| now := now st; proc := p; net := net st; stateChan := stateChan st;
     doneChan := doneChan st; supTimer := supTimer st; loop := loop st;
     sup := sup st; history := history st |}.

Definition with_net (n : Net) (st : Sys) : Sys :=
  {| now := now st; proc := proc st; net := n; stateChan := stateChan st;
     doneChan := doneChan st; supTimer := supTimer st; loop := loop st;
     sup := sup st; history := history st |}.

Definition with_stateChan (c : Chan) (st : Sys) : Sys :=
  {| now := now st; proc := proc st; net := net st; stateChan := c;
     doneChan := doneChan st; supTimer := supTimer st; loop := loop st;
     sup := sup st; history := history st |}.

Definition with_doneChan (c : Chan) (st : Sys) : Sys :=
  {| now := now st; proc := proc st; net := net st; stateChan := stateChan st;
     doneChan := c; supTimer := supTimer st; loop := loop st;
     sup := sup st; history := history st |}.

Definition with_supTimer (t : option Z) (st : Sys) : Sys :=
  {| now := now st; proc := proc st; net := net st; stateChan := stateChan st;
     doneChan := doneChan st; supTimer := t; loop := loop st;
     sup := sup st; history := history st |}.

Definition with_loop (l : LoopPc) (st : Sys) : Sys :=
  {| now := now st; proc := proc st; net := net st; stateChan := stateChan st;
     doneChan := doneChan st; supTimer := supTimer st; loop := l;
     sup := sup st; history := history st |}.

Definition with_sup (s : SupPc) (st : Sys) : Sys :=
  {| now := now st; proc := proc st; net := net st; stateChan := stateChan st;
     doneChan := doneChan st; supTimer := supTimer st; loop := loop st;
     sup := s; history := history st |}.

(** Record an event with the time it happened at. *)
Definition record_at (t : Z) (e : Event) (st : Sys) : Sys :=
  {| now := now st; proc := proc st; net := net st; stateChan := stateChan st;
     doneChan := doneChan st; supTimer := supTimer st; loop := loop st;
     sup := sup st; history := (t, e) :: history st |}.

Definition record (e : Event) (st : Sys) : Sys := record_at (now st) e st.

Section Goroutines.

Variable w : World.
Variables mip mport mapi sip : string.

(** Line 176. *)
Definition mesosHostPort : string := mip ++ ":" ++ mport.

(** The supervisor blocked in its select is released by a value on
    stateChan (or by its closing). *)
Definition release_sup (v : bool) (st : Sys) : Sys :=
  record (Decided (GotState v)) (with_sup (SCase (GotState v)) st).

(** The loop blocked in its select is released by doneChan. *)
Definition release_loop (st : Sys) : Sys :=
  record (LoopWoke true) (with_loop LDone st).

(** One statement of the goroutine running
    [asyncQueryRegistration(mesosHostPort, mapi, sip, stateChan, doneChan)];
    [None] when it cannot move (blocked, or finished). *)
Definition asyncQueryRegistration (st : Sys) : option Sys :=
  match loop st with
  | LNotStarted => None
  | LCall =>
      Some (record TickStarted
              (with_loop (LRun (isSlaveRegistered mesosHostPort mapi sip)) st))
  | LRun p =>
      match p with
      | Ret isRegistered =>
          Some (with_loop (if isRegistered then LSend else LSelect) st)
      | Panic x => Some (with_proc (Crashed x) st)
      | Exit code => Some (with_proc (ExitStatus code) st)
      | Print o k => Some (with_loop (LRun k) (with_net (say o (net st)) st))
      | NewRequest m u b k =>
          Some (with_loop (LRun (k (newRequest w m u b))) st)
      | ClientDo req k =>
          Some (record (Issued req)
                  (with_loop (LAwait (length (sent (net st))) req k)
                     (with_net (send req (net st)) st)))
      end
  | LAwait _ _ _ => None
  | LSend =>
      if closed (stateChan st) then Some (with_proc (Crashed SendOnClosedChannel) st)
      else
        match sup st with
        | SParked _ =>
            Some (release_sup true (record (Delivered true) (with_loop LSelect st)))
        | _ =>
            match trySend true (stateChan st) with
            | SendOk c =>
                Some (record (Delivered true)
                        (with_loop LSelect (with_stateChan c st)))
            | SendBlocks => None
            | SendPanics => Some (with_proc (Crashed SendOnClosedChannel) st)
            end
        end
  | LSelect =>
      match recv (doneChan st) with
      | Some (_, c) =>
          Some (record (LoopWoke true) (with_loop LDone (with_doneChan c st)))
      | None => Some (with_loop (LParked (now st + 15 * Second)) st)
      end
  | LParked _ => None
  | LDone =>
      let st := with_net (say (Text "Exiting async loop....") (net st)) st in
      match tryClose (stateChan st) with
      | None => Some (with_proc (Crashed CloseOfClosedChannel) st)
      | Some c =>
          let st := record OutClosed (with_loop (LCheck true) (with_stateChan c st)) in
          match sup st with
          | SParked _ => Some (release_sup false st)
          | _ => Some st
          end
      end
  | LCheck exitFor => Some (with_loop (if exitFor then LReturned else LCall) st)
  | LReturned => None
  end.

(** The answer to the pending [client.Do] arrives. *)
Definition arrive (st : Sys) : option Sys :=
  match loop st with
  | LAwait n req k => Some (with_loop (LRun (k (roundTrip w n req))) st)
  | _ => None
  end.

Definition isRegistered_of (c : SupCase) : bool :=
  match c with
  | GotState v => v
  | TimedOut => false
  end.

(** One statement of the goroutine running
    [waitForMesosSlaveRegistration(mip, mport, mapi, sip)]. *)
Definition waitForMesosSlaveRegistration (st : Sys) : option Sys :=
  match sup st with
  | SStart =>
      Some (with_sup SSelect
              (with_loop LCall
                 (with_doneChan (make 1) (with_stateChan (make 1) st))))
  | SSelect =>
      let deadline := now st + 90 * Second in
      let st := with_supTimer (Some deadline) st in
      match recv (stateChan st) with
      | Some (v, c) =>
          Some (record (Decided (GotState v))
                  (with_sup (SCase (GotState v)) (with_stateChan c st)))
      | None => Some (with_sup (SParked deadline) st)
      end
  | SParked _ => None
  | SCase c =>
      let line :=
        match c with
        | GotState _ =>
            "Found a slave registered with IP: '" ++ sip ++ "'" ++ nl
        | TimedOut =>
            "Couldn't find mesos slave after '" ++ "90" ++ "' seconds" ++ nl
        end in
      Some (with_sup (SSignal (isRegistered_of c))
              (with_net (say (Text line) (net st)) st))
  | SSignal b =>
      if closed (doneChan st) then Some (with_proc (Crashed SendOnClosedChannel) st)
      else
        match loop st with
        | LParked _ =>
            Some (release_loop (record Signalled (with_sup (SClose b) st)))
        | _ =>
            match trySend true (doneChan st) with
            | SendOk c =>
                Some (record Signalled
                        (with_sup (SClose b) (with_doneChan c st)))
            | SendBlocks => None
            | SendPanics => Some (with_proc (Crashed SendOnClosedChannel) st)
            end
        end
  | SClose b =>
      match tryClose (doneChan st) with
      | None => Some (with_proc (Crashed CloseOfClosedChannel) st)
      | Some c =>
          let st := record DoneClosed (with_sup (SReturned b) (with_doneChan c st)) in
          match loop st with
          | LParked _ => Some (release_loop st)
          | _ => Some st
          end
      end
  | SReturned _ => None
  end.

(** Time passes by [d] nanoseconds; the timers whose deadline is reached
    fire, at their deadline. *)
Definition advance (d : Z) (st : Sys) : option Sys :=
  if d <=? 0 then None
  else
    let t := now st + d in
    let st := with_now t st in
    let st :=
      match loop st with
      | LParked deadline =>
          if deadline <=? t
          then record_at deadline (LoopWoke false) (with_loop LCall st)
          else st
      | _ => st
      end in
    let st :=
      match sup st with
      | SParked deadline =>
          if deadline <=? t
          then record_at deadline (Decided TimedOut) (with_sup (SCase TimedOut) st)
          else st
      | _ => st
      end in
    Some st.

Inductive Action : Type :=
| Advance (d : Z)
| StepSup
| StepLoop
| Arrive.

(** Nothing moves once the process has died. *)
Definition step (a : Action) (st : Sys) : option Sys :=
  match proc st with
  | Running =>
      match a with
      | Advance d => advance d st
      | StepSup => waitForMesosSlaveRegistration st
      | StepLoop => asyncQueryRegistration st
      | Arrive => arrive st
      end
  | _ => None
  end.

Fixpoint exec (schedule : list Action) (st : Sys) : option Sys :=
  match schedule with
  | [] => Some st
  | a :: rest =>
      match step a st with
      | Some st' => exec rest st'
      | None => None
      end
  end.

Definition reachable (st : Sys) : Prop :=
  exists schedule, exec schedule initial = Some st.

End Goroutines.

(** ** Vocabulary of the statements *)

(** The request [queryMesosState] builds for a URL. *)
Definition post (url : string) : Request :=
  {| Method := "POST"; URL := url; RequestBody := EmptyString |}.

Definition querying (url : string) : Output :=
  Text ("Querying mesos endpoint @:" ++ url ++ nl).

Definition responseCode (status : string) : Output :=
  Text ("HTTP Response Code: '" ++ status ++ "'" ++ nl).

(** The console and the network after a call of [queryMesosState] that got
    an answer with the given status line. *)
Definition answered (url status : string) (n : Net) : Net :=
  say (responseCode status) (send (post url) (say (querying url) n)).

(** The string contains the separator of [leader] fields. *)
Fixpoint hasAt (s : string) : bool :=
  match s with
  | EmptyString => false
  | String c rest => Ascii.eqb c at_sign || hasAt rest
  end.

(** The snapshot decoded from the answer to the last request on record. *)
Definition lastSnapshot (w : World) (n : Net) : option MesosState :=
  match rev (sent n) with
  | [] => None
  | req :: _ =>
      match roundTrip w (Nat.pred (length (sent n))) req with
      | inl resp =>
          match Body resp with
          | JSON s => Some s
          | NotJSON => None
          end
      | inr _ => None
      end
  end.

(** What is left of [isSlaveRegistered] once it has decided to ask the
    leader at [newHostPort]: lines 120-133. *)
Definition askLeader (newHostPort mesosApiEndpoint agentIP : string) : Prog bool :=
  '(stateData, _) <- queryMesosState (stateURL newHostPort mesosApiEndpoint) ;;
  resolved <- deref stateData ;;
  Ret (scanSlaves (Slaves resolved) agentIP).

(** Concrete documents, worlds and runs used as examples. *)
Module Examples.

Definition attributes (ip : string) : MesosSlaveAttributes :=
  {| Host := "ip-172-31-34-94"; InstanceType := "m4.large";
     PublicIP := "52.205.254.70"; Rack := "us-east-1a"; PrivateIP := ip |}.

Definition agent (ip : string) : MesosSlave :=
  {| IsActive := true; MesosPid := "slave(1)@" ++ ip ++ ":5051";
     Attributes := attributes ip; RegisteredTime := 1458344100%float |}.

Definition target : string := "172.31.34.94".

(** A follower's answer: no elected_time, no slaves. *)
Definition followerView : MesosState :=
  {| ElectedTime := 0%float; Leader := "master@10.0.0.2:5050";
     Pid := "slave@10.0.0.5:5050"; Slaves := [] |}.

(** The leader's answer, with the awaited agent registered. *)
Definition leaderView : MesosState :=
  {| ElectedTime := 1458344004%float; Leader := "master@10.0.0.2:5050";
     Pid := "master@10.0.0.2:5050"; Slaves := [agent "172.31.40.1"; agent target] |}.


(** A document in transition: no elected_time although leader = pid. *)
Definition unelectedSelf : MesosState :=
  {| ElectedTime := 0%float; Leader := "master@10.0.0.2:5050";
     Pid := "master@10.0.0.2:5050"; Slaves := [] |}.

(** A follower whose leader field lacks the separator. *)
Definition followerNoAt : MesosState :=
  {| ElectedTime := 0%float; Leader := "10.0.0.2:5050";
     Pid := "slave@10.0.0.5:5050"; Slaves := [] |}.

Definition ok (s : MesosState) : Response + error :=
  inl {| Status := "200 OK"; Body := JSON s |}.

Definition garbled : Response + error :=
  inl {| Status := "200 OK"; Body := NotJSON |}.

(** A world that answers the calls of [client.Do] from a script, then
    keeps giving the last resort answer. *)
Definition scripted (rejects : string -> bool)
    (script : list (Response + error)) (after : Response + error) : World :=
  {| rejectsURL := rejects; roundTrip := fun n _ => nth n script after |}.

Definition acceptAll (url : string) : bool := false.

(** [http.NewRequest] refuses a URL whose port is not a number. *)
Definition badPortURL : string := "http://10.0.0.5:x//state".

Definition rejectBadPort (url : string) : bool := String.eqb url badPortURL.

Definition followerThenLeader : World :=
  scripted acceptAll [ok followerView] (ok leaderView).

Definition leaderAtOnce : World := scripted acceptAll [] (ok leaderView).

Definition garbledAtOnce : World := scripted acceptAll [] garbled.


Definition unelectedSelfWorld : World := scripted acceptAll [] (ok unelectedSelf).

Definition noAtWorld : World := scripted acceptAll [] (ok followerNoAt).

Definition followerThenGarbled : World :=
  scripted acceptAll [ok followerView] garbled.

Definition pickyWorld : World := scripted rejectBadPort [] (ok leaderView).

(** The command line of the examples: --mip 10.0.0.5 --mport 5050
    --mapi /state --sip 172.31.34.94. *)
Definition mip : string := "10.0.0.5".
Definition mport : string := "5050".
Definition mapi : string := "/state".

Definition runFrom (w : World) (schedule : list Action) : option Sys :=
  exec w mip mport mapi target schedule initial.

Definition loopSteps (n : nat) : list Action := repeat StepLoop n.

(** Both goroutines start; the loop makes its first call of [client.Do]. *)
Definition firstQuery : list Action :=
  [StepSup; StepSup] ++ loopSteps 4.

(** The first answer arrives at once and does not decode. *)
Definition garbledRun : list Action :=
  firstQuery ++ [Arrive] ++ loopSteps 3.


(** The first tick finds the match and delivers it; the supervisor has
    taken it but is held up for 15 seconds before line 186 (its Printf of
    line 182 writes to a console that does not drain, say); the loop's
    timer fires and it queries again. *)
Definition idleSupervisorRun : list Action :=
  firstQuery ++ [Arrive] ++ loopSteps 4
  ++ [Advance (15 * Second)] ++ loopSteps 4.

(** The first answer takes 90 seconds, so the supervisor has timed out
    when the match is put into the channel's buffer; the supervisor is
    again held up before line 186; the next tick finds the match too. *)
Definition blockedSendRun : list Action :=
  firstQuery ++ [Advance (90 * Second); Arrive] ++ loopSteps 4
  ++ [Advance (15 * Second)] ++ loopSteps 4 ++ [Arrive] ++ loopSteps 2.

(** The first answer, from a follower, takes 110 seconds; the supervisor
    times out at 90 seconds and sends the stop signal; the loop then asks
    the leader, delivers, and only then comes to its select. *)
Definition slowFirstQueryRun : list Action :=
  firstQuery
  ++ [Advance (90 * Second); StepSup; StepSup; Advance (20 * Second); Arrive]
  ++ loopSteps 4 ++ [Arrive] ++ loopSteps 5.

(** Follower first, then the leader with the agent registered, all within
    5 nanoseconds; everyone runs to the end. *)
Definition successRun : list Action :=
  firstQuery ++ [Advance 5; Arrive] ++ loopSteps 4 ++ [Arrive] ++ loopSteps 4
  ++ [StepSup; StepSup; StepSup] ++ loopSteps 2.

(** The state at the end of [successRun]. *)
Definition successState : Sys :=
  match runFrom followerThenLeader successRun with
  | Some st => st
  | None => initial
  end.

(** The first answer takes 100 seconds and does not decode; by then the
    supervisor has timed out, sent the stop signal and returned. *)
Definition exitAfterSignalRun : list Action :=
  firstQuery
  ++ [Advance (90 * Second); StepSup; StepSup; StepSup;
      Advance (10 * Second); Arrive]
  ++ loopSteps 3.

(** [blockedSendRun], and then the supervisor runs to its return. *)
Definition leakRun : list Action :=
  blockedSendRun ++ [StepSup; StepSup; StepSup].

Definition leakState : Sys :=
  match runFrom leaderAtOnce leakRun with
  | Some st => st
  | None => initial
  end.

(** The state at the end of [slowFirstQueryRun]. *)
Definition slowFirstQueryState : Sys :=
  match runFrom followerThenLeader slowFirstQueryRun with
  | Some st => st
  | None => initial
  end.

(** What that run has on record after its stop signal, newest first. *)
Definition sinceSlowSignal : list (Z * Event) :=
  [(110 * Second, OutClosed);
   (110 * Second, LoopWoke true);
   (110 * Second, Delivered true);
   (110 * Second, Issued (post "http://10.0.0.2:5050//state"))].

(** The master cannot be reached. *)
Definition unreachable : World := scripted acceptAll [] (inr TransportError).

(** The state at the end of [exitAfterSignalRun] when no answer decodes: the
    supervisor has returned false, then the late answer has ended the
    process. *)
Definition timedOutState : Sys :=
  match runFrom garbledAtOnce exitAfterSignalRun with
  | Some st => st
  | None => initial
  end.

(** The state at the end of [idleSupervisorRun]: two calls have begun. *)
Definition secondPollState : Sys :=
  match runFrom leaderAtOnce idleSupervisorRun with
  | Some st => st
  | None => initial
  end.


(** The supervisor times out and sends the stop signal while the first
    request, to a follower, is pending. *)
Definition signalMidRequestRun : list Action :=
  firstQuery ++ [Advance (90 * Second); StepSup; StepSup].

Definition signalMidRequestState : Sys :=
  match runFrom followerThenLeader signalMidRequestRun with
  | Some st => st
  | None => initial
  end.

(** The match of the first tick is put into the buffer after the
    supervisor has timed out; the stop signal is sent while the request of
    the second tick is pending. *)
Definition signalOnFullBufferRun : list Action :=
  firstQuery ++ [Advance (90 * Second); Arrive] ++ loopSteps 4
  ++ [Advance (15 * Second)] ++ loopSteps 4 ++ [StepSup; StepSup].

End Examples.

(** ** Vocabulary of the statements about runs *)

Definition isSignalled (e : Event) : bool :=
  match e with Signalled => true | _ => false end.

Definition isDoneClosed (e : Event) : bool :=
  match e with DoneClosed => true | _ => false end.

Definition isDelivered (e : Event) : bool :=
  match e with Delivered _ => true | _ => false end.

Definition isTickStarted (e : Event) : bool :=
  match e with TickStarted => true | _ => false end.

Definition isIssued (e : Event) : bool :=
  match e with Issued _ => true | _ => false end.

(** How many recorded events are of a kind. *)
Definition count (kind : Event -> bool) (h : list (Z * Event)) : nat :=
  length (filter (fun te => kind (snd te)) h).

(** The events recorded after the stop signal was sent (newest first);
    [None] when no stop signal is on record. *)
Fixpoint sinceSignal (h : list (Z * Event)) : option (list (Z * Event)) :=
  match h with
  | [] => None
  | (t, e) :: older =>
      if isSignalled e then Some []
      else match sinceSignal older with
           | Some newer => Some ((t, e) :: newer)
           | None => None
           end
  end.

(** A match reached the result channel strictly before [deadline]. *)
Definition deliveredBefore (deadline : Z) (h : list (Z * Event)) : Prop :=
  exists t, In (t, Delivered true) h /\ t < deadline.

(** The supervisor's verdict [b] is the one the race at [deadline] calls
    for, given the time [t] it is and the record [h] so far. *)
Definition verdict (b : bool) (deadline t : Z) (h : list (Z * Event)) : Prop :=
  (b = true -> deliveredBefore deadline h)
  /\ (b = false ->
      In (deadline, Decided TimedOut) h
      /\ deadline <= t
      /\ forall t' v, In (t', Delivered v) h -> deadline <= t').

(** The stop signal is on record before the closing of doneChan, and
    nothing of either kind besides. *)
Definition signalThenClose (h : list (Z * Event)) : Prop :=
  exists newer between older t1 t2,
    h = (newer ++ (t2, DoneClosed) :: between ++ (t1, Signalled) :: older)%list
    /\ t1 <= t2
    /\ count isSignalled h = 1%nat
    /\ count isDoneClosed h = 1%nat.

(** The loop has taken the stop signal and is on its way out. *)
Definition stopping (l : LoopPc) : bool :=
  match l with
  | LDone | LCheck _ | LReturned => true
  | _ => false
  end.

Definition parked (l : LoopPc) : bool :=
  match l with
  | LParked _ => true
  | _ => false
  end.

(** What holds of the channels, the loop and the record, by the place the
    supervisor stands at. *)
Definition phase_ok (st : Sys) : Prop :=
  match sup st with
  | SStart =>
      loop st = LNotStarted /\ history st = [] /\ supTimer st = None
  | SSelect =>
      supTimer st = None /\ doneChan st = make 1 /\ stopping (loop st) = false
      /\ count isSignalled (history st) = 0%nat
      /\ count isDoneClosed (history st) = 0%nat
      /\ ((buf (stateChan st) = [] /\ count isDelivered (history st) = 0%nat)
          \/ (buf (stateChan st) = [true]
              /\ exists t, In (t, Delivered true) (history st)))
  | SParked deadline =>
      supTimer st = Some deadline /\ now st < deadline
      /\ doneChan st = make 1 /\ stopping (loop st) = false
      /\ count isSignalled (history st) = 0%nat
      /\ count isDoneClosed (history st) = 0%nat
      /\ buf (stateChan st) = [] /\ count isDelivered (history st) = 0%nat
  | SCase c =>
      exists deadline,
        supTimer st = Some deadline /\ verdict (isRegistered_of c) deadline (now st) (history st)
        /\ c <> GotState false
        /\ doneChan st = make 1 /\ stopping (loop st) = false
        /\ count isSignalled (history st) = 0%nat
        /\ count isDoneClosed (history st) = 0%nat
  | SSignal b =>
      exists deadline,
        supTimer st = Some deadline /\ verdict b deadline (now st) (history st)
        /\ doneChan st = make 1 /\ stopping (loop st) = false
        /\ count isSignalled (history st) = 0%nat
        /\ count isDoneClosed (history st) = 0%nat
  | SClose b =>
      exists deadline,
        supTimer st = Some deadline /\ verdict b deadline (now st) (history st)
        /\ closed (doneChan st) = false /\ cap (doneChan st) = 1%nat
        /\ parked (loop st) = false
        /\ ((stopping (loop st) = true /\ buf (doneChan st) = [])
            \/ (stopping (loop st) = false /\ buf (doneChan st) = [true]))
        /\ count isSignalled (history st) = 1%nat
        /\ count isDoneClosed (history st) = 0%nat
        /\ exists t, In (t, Signalled) (history st)
  | SReturned b =>
      exists deadline,
        supTimer st = Some deadline /\ verdict b deadline (now st) (history st)
        /\ closed (doneChan st) = true
        /\ parked (loop st) = false
        /\ signalThenClose (history st)
  end.

(** What holds of the result channel, by the place the loop stands at. *)
Definition loop_ok (st : Sys) : Prop :=
  match loop st with
  | LNotStarted => sup st = SStart /\ closed (stateChan st) = false
  | LCheck exitFor => exitFor = true /\ closed (stateChan st) = true
  | LReturned => closed (stateChan st) = true
  | LParked deadline => closed (stateChan st) = false /\ now st < deadline
  | _ => closed (stateChan st) = false
  end.

(** A dead process died inside [isSlaveRegistered], of its panic or of its
    [os.Exit]; the channel operations never panic. *)
Definition proc_ok (st : Sys) : Prop :=
  match proc st with
  | Running => True
  | Crashed x => loop st = LRun (Panic x)
  | ExitStatus code => loop st = LRun (Exit code)
  end.

Record Inv (st : Sys) : Prop := {
  inv_clock : 0 <= now st;
  inv_stamps : Forall (fun te => fst te <= now st) (history st);
  inv_caps : sup st <> SStart ->
             cap (stateChan st) = 1%nat /\ cap (doneChan st) = 1%nat;
  inv_buf : (length (buf (stateChan st)) <= 1)%nat;
  inv_phase : phase_ok st;
  inv_loop : loop_ok st;
  inv_proc : proc_ok st
}.

(** The program calls [client.Do] at most [m] times, whatever it is
    answered. *)
Fixpoint atMost {A : Type} (p : Prog A) (m : nat) : Prop :=
  match p with
  | Ret _ | Panic _ | Exit _ => True
  | Print _ k => atMost k m
  | NewRequest _ _ _ k => forall r, atMost (k r) m
  | ClientDo _ k =>
      match m with
      | O => False
      | S m' => forall r, atMost (k r) m'
      end
  end.


(** A world in which no tick can fail: every request can be built, every
    call is answered by a document that decodes, and a document that asks
    for the redirect names its leader with an '@'. *)
Definition errorFree (w : World) : Prop :=
  (forall url, rejectsURL w url = false)
  /\ (forall n req, exists status s,
         roundTrip w n req = inl {| Status := status; Body := JSON s |}
         /\ (isFollowerView s = true -> hasAt (Leader s) = true)).

(** The call of [isSlaveRegistered] in progress has at most [m] calls of
    [client.Do] ahead of it. *)
Definition budget (m : nat) (l : LoopPc) : Prop :=
  match l with
  | LRun p => atMost p m
  | LAwait _ _ k => forall r, atMost (k r) m
  | _ => True
  end.

Definition tick_ok (st : Sys) : Prop := budget 2 (loop st).

(** Once the stop signal is on record, what the loop has done since and
    what it may still do are bounded by one call of [isSlaveRegistered]. *)
Definition afterSignal_ok (st : Sys) : Prop :=
  match sinceSignal (history st) with
  | None => True
  | Some since =>
      (count isTickStarted since <= 1)%nat
      /\ (loop st = LCall ->
          count isTickStarted since = 0%nat /\ count isIssued since = 0%nat)
      /\ exists m, (count isIssued since + m <= 2)%nat /\ budget m (loop st)
  end.


(** Nothing has been sent on the result channel yet: it is empty. *)
Definition pristine_ok (st : Sys) : Prop :=
  count isDelivered (history st) = 0%nat -> buf (stateChan st) = [].

(** The supervisor's own statements from where it stands to its return,
    with the wait for the timer where it is blocked. *)
Definition supRemaining (st : Sys) : list Action :=
  match sup st with
  | SStart => [StepSup; StepSup; Advance (90 * Second); StepSup; StepSup; StepSup]
  | SSelect => [StepSup; Advance (90 * Second); StepSup; StepSup; StepSup]
  | SParked deadline => [Advance (deadline - now st); StepSup; StepSup; StepSup]
  | SCase _ => [StepSup; StepSup; StepSup]
  | SSignal _ => [StepSup; StepSup]
  | SClose _ => [StepSup]
  | SReturned _ => []
  end.

(** ** Vocabulary of the further properties *)

(** The text of a string before its first '@' (all of it when there is
    none). *)
Fixpoint upToAt (s : string) : string :=
  match s with
  | EmptyString => EmptyString
  | String c rest =>
      if Ascii.eqb c at_sign then EmptyString else String c (upToAt rest)
  end.

(** The privateip attributes of a worker list, in its order. *)
Definition privateIPs (slaves : list MesosSlave) : list string :=
  map (fun slave => PrivateIP (Attributes slave)) slaves.




(** The times, newest first, at which calls of [isSlaveRegistered] began. *)
Definition tickTimes (h : list (Z * Event)) : list Z :=
  map fst (filter (fun te => isTickStarted (snd te)) h).

(** Each time of the list (newest first) is at least 15 seconds after the
    one before it. *)
Fixpoint spaced (times : list Z) : Prop :=
  match times with
  | [] => True
  | t2 :: earlier =>
      match earlier with
      | [] => True
      | t1 :: _ => t1 + 15 * Second <= t2
      end /\ spaced earlier
  end.

(** The calls begun so far are spaced, and the next one will be. *)
Definition spacing_ok (st : Sys) : Prop :=
  spaced (tickTimes (history st))
  /\ match loop st with
     | LNotStarted => tickTimes (history st) = []
     | LCall =>
         Forall (fun t => t + 15 * Second <= now st) (tickTimes (history st))
     | LParked deadline =>
         Forall (fun t => t + 15 * Second <= deadline) (tickTimes (history st))
     | _ => True
     end.

(** Only [true] is ever pending on the result channel. *)
Definition channel_ok (st : Sys) : Prop :=
  Forall (fun v => v = true) (buf (stateChan st)).

(** The clock starts at 0, so the deadline of the supervisor's timer is at
    least 90 seconds. *)
Definition timer_ok (st : Sys) : Prop :=
  forall deadline, supTimer st = Some deadline -> 90 * Second <= deadline.

(** A request with verb POST and an empty body. *)
Definition isPost (req : Request) : Prop :=
  Method req = "POST" /\ RequestBody req = EmptyString.

(** Every request the program hands to [client.Do] in the world [w] is a
    POST with an empty body. *)
Fixpoint posts {A : Type} (w : World) (p : Prog A) : Prop :=
  match p with
  | Ret _ | Panic _ | Exit _ => True
  | Print _ k => posts w k
  | NewRequest m u b k => posts w (k (newRequest w m u b))
  | ClientDo req k => isPost req /\ forall r, posts w (k r)
  end.

(** All requests sent, and all the call in progress may send, are such. *)
Definition posts_ok (w : World) (st : Sys) : Prop :=
  Forall isPost (sent (net st))
  /\ match loop st with
     | LRun p => posts w p
     | LAwait _ _ k => forall r, posts w (k r)
     | _ => True
     end.

(** The requests issued so far, and those the call in progress may still
    issue, are at most two for each call begun. *)
Definition load_ok (st : Sys) : Prop :=
  exists m,
    (count isIssued (history st) + m <= 2 * count isTickStarted (history st))%nat
    /\ budget m (loop st)
    /\ length (sent (net st)) = count isIssued (history st).

(** Among the requests sent, one with index at least [lo] was answered by a
    document that decodes to a snapshot listing a worker with the address
    [ip]. *)
Definition listed (w : World) (ip : string) (lo : nat) (reqs : list Request)
  : Prop :=
  exists i req resp s,
    (lo <= i)%nat
    /\ nth_error reqs i = Some req
    /\ roundTrip w i req = inl resp
    /\ Decode (Body resp) = inl s
    /\ scanSlaves (Slaves s) ip = true.

(** Run from the requests [reqs] sent so far, the program returns [true]
    only with such an answer among its own requests. *)
Fixpoint honest (w : World) (ip : string) (lo : nat) (p : Prog bool)
    (reqs : list Request) : Prop :=
  match p with
  | Ret b => b = true -> listed w ip lo reqs
  | Panic _ | Exit _ => True
  | Print _ k => honest w ip lo k reqs
  | NewRequest m u b k => honest w ip lo (k (newRequest w m u b)) reqs
  | ClientDo req k =>
      honest w ip lo (k (roundTrip w (length reqs) req)) (reqs ++ [req])
  end.

(** A [true] on its way from a call of [isSlaveRegistered] to the caller of
    [waitForMesosSlaveRegistration] is backed by such an answer. *)
Definition honest_ok (w : World) (ip : string) (st : Sys) : Prop :=
  match loop st with
  | LRun p => honest w ip 0 p (sent (net st))
  | LAwait n req k => honest w ip 0 (k (roundTrip w n req)) (sent (net st))
  | LSend => listed w ip 0 (sent (net st))
  | _ => True
  end
  /\ (In true (buf (stateChan st)) -> listed w ip 0 (sent (net st)))
  /\ match sup st with
     | SCase (GotState true) | SSignal true | SClose true | SReturned true =>
         listed w ip 0 (sent (net st))
     | _ => True
     end.

(** The steps that take the polling goroutine through the rest [p] of a call
    of [isSlaveRegistered], each answer arriving before anything else
    happens; [issued] is the number of requests sent before. *)
Fixpoint tickSchedule (w : World) (p : Prog bool) (issued : nat) : list Action :=
  match p with
  | Ret _ | Panic _ | Exit _ => [StepLoop]
  | Print _ k => StepLoop :: tickSchedule w k issued
  | NewRequest m u b k => StepLoop :: tickSchedule w (k (newRequest w m u b)) issued
  | ClientDo req k =>
      StepLoop :: Arrive :: tickSchedule w (k (roundTrip w issued req)) (S issued)
  end.

(** How the goroutine stands after a call with the given outcome. *)
Definition afterCall (o : Outcome bool) (st : Sys) : Prop :=
  match o with
  | Returned isRegistered =>
      proc st = Running /\ loop st = (if isRegistered then LSend else LSelect)
  | Panicked x => proc st = Crashed x
  | Exited code => proc st = ExitStatus code
  end.

(** The parts of the state a call of [isSlaveRegistered] leaves alone. *)
Definition sameOutside (st st' : Sys) : Prop :=
  now st' = now st /\ sup st' = sup st /\ supTimer st' = supTimer st
  /\ stateChan st' = stateChan st /\ doneChan st' = doneChan st.







(** The result channel has room for a value. *)
Definition room (c : Chan) : bool := (length (buf c) <? cap c)%nat.

(** How the call of [isSlaveRegistered] that is in progress, or about to
    begin, will end: the world fixes the answers, and the requests sent so
    far fix which answers the call gets. *)
Definition callOutcome (w : World) (mip mport mapi sip : string) (st : Sys)
  : option (Outcome bool) :=
  match loop st with
  | LCall =>
      Some (fst (run w (isSlaveRegistered (mesosHostPort mip mport) mapi sip)
                   (net st)))
  | LRun p => Some (fst (run w p (net st)))
  | LAwait n req k => Some (fst (run w (k (roundTrip w n req)) (net st)))
  | _ => None
  end.

(** The steps of the polling goroutine to the end of that call, each
    answer arriving before anything else happens. *)
Definition callSchedule (w : World) (mip mport mapi sip : string) (st : Sys)
  : list Action :=
  match loop st with
  | LCall =>
      StepLoop
        :: tickSchedule w (isSlaveRegistered (mesosHostPort mip mport) mapi sip)
             (length (sent (net st)))
  | LRun p => tickSchedule w p (length (sent (net st)))
  | LAwait n req k =>
      Arrive :: tickSchedule w (k (roundTrip w n req)) (length (sent (net st)))
  | _ => []
  end.

(** What becomes of a loop that the stop signal has been sent to. *)
Inductive Fate : Type :=
| Closes          (* it takes the signal, closes the output and returns *)
| Dies            (* its call ends the process *)
| Blocks.         (* it blocks for good in the send of line 146 *)

Definition fateOf (hasRoom : bool) (o : Outcome bool) : Fate :=
  match o with
  | Returned true => if hasRoom then Closes else Blocks
  | Returned false => Closes
  | Panicked _ | Exited _ => Dies
  end.

Definition loopFate (w : World) (mip mport mapi sip : string) (st : Sys) : Fate :=
  match callOutcome w mip mport mapi sip st with
  | Some o => fateOf (room (stateChan st)) o
  | None =>
      match loop st with
      | LSend => fateOf (room (stateChan st)) (Returned true)
      | _ => Closes
      end
  end.

(** Lines 148-155 and 161-164 with the signal ready: the select takes it,
    the output is closed, the for loop is left. *)
Definition wayOut : list Action := [StepLoop; StepLoop; StepLoop].

Definition afterCallSteps (hasRoom : bool) (o : Outcome bool) : list Action :=
  match o with
  | Returned true => if hasRoom then StepLoop :: wayOut else []
  | Returned false => wayOut
  | Panicked _ | Exited _ => []
  end.

(** The polling goroutine's own statements from where it stands, once the
    stop signal has been sent, as far as they go. *)
Definition loopRemaining (w : World) (mip mport mapi sip : string) (st : Sys)
  : list Action :=
  match callOutcome w mip mport mapi sip st with
  | Some o =>
      callSchedule w mip mport mapi sip st
      ++ afterCallSteps (room (stateChan st)) o
  | None =>
      match loop st with
      | LSend => afterCallSteps (room (stateChan st)) (Returned true)
      | LSelect => wayOut
      | LDone => [StepLoop; StepLoop]
      | LCheck _ => [StepLoop]
      | _ => []
      end
  end.

(** The loop has come to the end that the fate names: returned with the
    output channel closed, or dead, or blocked in its send, and in the last
    two cases the output channel is open and stays so whatever happens. *)
Definition loopEnded (w : World) (mip mport mapi sip : string) (f : Fate)
    (st : Sys) : Prop :=
  match f with
  | Closes =>
      proc st = Running /\ loop st = LReturned /\ closed (stateChan st) = true
  | Dies =>
      proc st <> Running
      /\ forall schedule st',
           exec w mip mport mapi sip schedule st = Some st' ->
           closed (stateChan st') = false
  | Blocks =>
      proc st = Running
      /\ forall schedule st',
           exec w mip mport mapi sip schedule st = Some st' ->
           loop st' = LSend /\ closed (stateChan st') = false
  end.

(** * Properties *)

(** ** The sequential code *)

Lemma append_assoc (a b c : string) : ((a ++ b) ++ c = a ++ (b ++ c))%string.
Proof.
  induction a as [|ch a IH]; simpl; [reflexivity | now rewrite IH].
Qed.

Lemma run_bind {A B : Type} (w : World) (p : Prog A) (f : A -> Prog B) :
  forall n,
    run w (bind p f) n =
    match run w p n with
    | (Returned a, n') => run w (f a) n'
    | (Panicked x, n') => (Panicked x, n')
    | (Exited c, n') => (Exited c, n')
    end.
Proof.
  induction p as [a|x|c|o k IH|m u b k IH|req k IH]; intro n; simpl; auto.
Qed.

(** What one call of [queryMesosState] does, case by case. *)
Lemma run_queryMesosState (w : World) (url : string) (n : Net) :
  run w (queryMesosState url) n =
  if rejectsURL w url
  then (Panicked (PanicError NewRequestError), say (querying url) n)
  else match roundTrip w (length (sent n)) (post url) with
       | inr err =>
           (Panicked (PanicError err), send (post url) (say (querying url) n))
       | inl resp =>
           match Body resp with
           | JSON s => (Returned (Some s, None), answered url (Status resp) n)
           | NotJSON =>
               (Returned (None, Some DecodeError), answered url (Status resp) n)
           end
       end.
Proof.
  unfold queryMesosState, Printf, answered, querying, responseCode, post.
  cbn [bind run]. unfold newRequest.
  destruct (rejectsURL w url); cbn [bind run]; [reflexivity|].
  cbn [say sent].
  destruct (roundTrip w (length (sent n)) _) as [resp|err]; cbn [bind run];
    [|reflexivity].
  destruct resp as [status [|s]]; reflexivity.
Qed.

Lemma scanSlaves_true_iff (slaves : list MesosSlave) (agentIP : string) :
  scanSlaves slaves agentIP = true <->
  exists slave, In slave slaves /\ PrivateIP (Attributes slave) = agentIP.
Proof.
  induction slaves as [|s rest IH]; simpl.
  - split; [discriminate | intros [? [[] _]]].
  - destruct (String.eqb_spec (PrivateIP (Attributes s)) agentIP) as [E|N].
    + split; [intros _; exists s; auto | reflexivity].
    + rewrite IH. split.
      * intros [x [Hin Hx]]. exists x. auto.
      * intros [x [[->|Hin] Hx]]; [contradiction | exists x; auto].
Qed.

Lemma Split_without_separator (s : string) :
  hasAt s = false -> Split s at_sign = [s].
Proof.
  induction s as [|c s IH]; simpl; [reflexivity|].
  intro H. apply orb_false_iff in H as [Hc Hs].
  rewrite Hc, (IH Hs). reflexivity.
Qed.

(** After a first answer that decodes, [isSlaveRegistered] goes on as
    follows. *)
Lemma run_isSlaveRegistered_decoded (w : World) (hp api ip status : string)
    (s : MesosState) (n : Net) :
  rejectsURL w (stateURL hp api) = false ->
  roundTrip w (length (sent n)) (post (stateURL hp api))
    = inl {| Status := status; Body := JSON s |} ->
  run w (isSlaveRegistered hp api ip) n =
  let n1 := answered (stateURL hp api) status n in
  if isFollowerView s then
    match nth_error (Split (Leader s) at_sign) 1 with
    | Some newHostPort => run w (askLeader newHostPort api ip) n1
    | None => (Panicked IndexOutOfRange, n1)
    end
  else (Returned (scanSlaves (Slaves s) ip), n1).
Proof.
  intros Hurl Hreply. unfold isSlaveRegistered.
  rewrite run_bind, run_queryMesosState, Hurl, Hreply.
  cbn [Body Status deref bind run].
  destruct (isFollowerView s); cbn [bind run]; [|reflexivity].
  unfold index. destruct (nth_error (Split (Leader s) at_sign) 1) as [hp'|];
    cbn [bind run]; [|reflexivity].
  unfold askLeader. rewrite !run_bind.
  destruct (run w (queryMesosState (stateURL hp' api)) _) as [[[sd e]|x|c] n2];
    reflexivity.
Qed.

Lemma lastSnapshot_answered (w : World) (url status : string) (s : MesosState)
    (n : Net) :
  roundTrip w (length (sent n)) (post url) = inl {| Status := status; Body := JSON s |} ->
  lastSnapshot w (answered url status n) = Some s.
Proof.
  intro H. unfold lastSnapshot, answered. cbn [say send sent].
  rewrite rev_app_distr. cbn [rev app].
  rewrite length_app. cbn [length].
  replace (Nat.pred (length (sent n) + 1)) with (length (sent n)) by lia.
  rewrite H. reflexivity.
Qed.

Lemma run_askLeader (w : World) (hp api ip : string) (n : Net) :
  run w (askLeader hp api ip) n =
  match run w (queryMesosState (stateURL hp api)) n with
  | (Returned (Some s, _), n') => (Returned (scanSlaves (Slaves s) ip), n')
  | (Returned (None, _), n') => (Panicked NilDereference, n')
  | (Panicked x, n') => (Panicked x, n')
  | (Exited c, n') => (Exited c, n')
  end.
Proof.
  unfold askLeader. rewrite run_bind.
  destruct (run w (queryMesosState (stateURL hp api)) n) as [[[[s|] e]|x|c] n'];
    reflexivity.
Qed.

(** C7.  Whenever [isSlaveRegistered] returns a boolean, that boolean is the
    result of the scan over the worker list of the resolved snapshot (the
    document decoded from the last answer received), and it is [true] if and
    only if some worker record of that list has [attributes.privateip]
    equal, as a string, to the target IP; in particular it is [false] when
    the list is empty or absent (a nil slice). *)
Theorem isSlaveRegistered_scan_iff_worker_matches :
  forall (w : World) (hp api ip : string) (n n' : Net) (b : bool),
    run w (isSlaveRegistered hp api ip) n = (Returned b, n') ->
    exists resolved,
      lastSnapshot w n' = Some resolved /\
      b = scanSlaves (Slaves resolved) ip /\
      (b = true <->
       exists slave, In slave (Slaves resolved) /\
                     PrivateIP (Attributes slave) = ip) /\
      (Slaves resolved = [] -> b = false).
Proof.
  intros w hp api ip n n' b Hrun.
  assert (Hgoal : forall s, lastSnapshot w n' = Some s ->
                            b = scanSlaves (Slaves s) ip ->
                            exists resolved,
      lastSnapshot w n' = Some resolved /\
      b = scanSlaves (Slaves resolved) ip /\
      (b = true <->
       exists slave, In slave (Slaves resolved) /\
                     PrivateIP (Attributes slave) = ip) /\
      (Slaves resolved = [] -> b = false)).
  { intros s Hs Hb. exists s. repeat split; auto.
    - intro Ht. apply scanSlaves_true_iff. congruence.
    - intro Hex. apply scanSlaves_true_iff in Hex. congruence.
    - intro Hnil. rewrite Hb, Hnil. reflexivity. }
  destruct (rejectsURL w (stateURL hp api)) eqn:Hurl.
  { unfold isSlaveRegistered in Hrun.
    rewrite run_bind, run_queryMesosState, Hurl in Hrun. discriminate. }
  destruct (roundTrip w (length (sent n)) (post (stateURL hp api)))
    as [[status [|s]]|err] eqn:Hreply.
  - unfold isSlaveRegistered in Hrun.
    rewrite run_bind, run_queryMesosState, Hurl, Hreply in Hrun.
    cbn in Hrun. discriminate.
  - rewrite (run_isSlaveRegistered_decoded w hp api ip n Hurl Hreply) in Hrun.
    cbv zeta in Hrun.
    destruct (isFollowerView s).
    + destruct (nth_error (Split (Leader s) at_sign) 1) as [hp'|];
        [|discriminate].
      rewrite run_askLeader, run_queryMesosState in Hrun.
      destruct (rejectsURL w (stateURL hp' api)); [discriminate|].
      destruct (roundTrip w _ (post (stateURL hp' api)))
        as [[status2 [|s2]]|err2] eqn:Hreply2; try discriminate.
      cbn [Body Status] in Hrun. inversion Hrun; subst.
      apply (Hgoal s2); [|reflexivity].
      apply lastSnapshot_answered. exact Hreply2.
    + inversion Hrun; subst.
      apply (Hgoal s); [|reflexivity].
      apply lastSnapshot_answered. exact Hreply.
  - unfold isSlaveRegistered in Hrun.
    rewrite run_bind, run_queryMesosState, Hurl, Hreply in Hrun. discriminate.
Qed.

Lemma isSlaveRegistered_scan_witness :
  exists resolved,
    lastSnapshot Examples.followerThenLeader
      (snd (run Examples.followerThenLeader
              (isSlaveRegistered "10.0.0.5:5050" "/state" Examples.target) quiet))
      = Some resolved /\
    true = scanSlaves (Slaves resolved) Examples.target /\
    (true = true <->
     exists slave, In slave (Slaves resolved) /\
                   PrivateIP (Attributes slave) = Examples.target) /\
    (Slaves resolved = [] -> true = false).
Proof.
  apply (isSlaveRegistered_scan_iff_worker_matches
           Examples.followerThenLeader "10.0.0.5:5050" "/state" Examples.target
           quiet).
  reflexivity.
Defined.

(** C9, as stated, fails: a call of [queryMesosState] whose URL
    [http.NewRequest] refuses (here a port that is not a number) panics
    before anything is sent, so it issues no request at all. *)
Lemma queryMesosState_rejected_url_sends_nothing :
  run Examples.pickyWorld (queryMesosState Examples.badPortURL) quiet
    = (Panicked (PanicError NewRequestError),
       say (querying Examples.badPortURL) quiet)
  /\ sent (snd (run Examples.pickyWorld
                  (queryMesosState Examples.badPortURL) quiet)) = [].
Proof. split; reflexivity. Qed.

(** C9, amended.  A call of [queryMesosState] whose request can be built
    calls [client.Do] exactly once, with a request of verb POST, an empty
    body and the URL it was given; whatever the answer, it does not call it
    again.  A call whose request cannot be built panics before [client.Do]
    and calls it not at all.  The URL of the first call made by
    [isSlaveRegistered] on behalf of
    [waitForMesosSlaveRegistration(mip, mport, mapi, sip)] is
    http://mip:mport/mapi.  This is a statement about the calls of
    [client.Do] ([sent] lists them): what the [http.Client] sends on the
    wire inside one call is the library's doing and is not stated. *)
Theorem queryMesosState_calls_client_do_once :
  forall (w : World) (url : string) (n : Net),
    (rejectsURL w url = false ->
     sent (snd (run w (queryMesosState url) n))
       = (sent n ++ [{| Method := "POST"; URL := url;
                        RequestBody := EmptyString |}])%list)
    /\ (rejectsURL w url = true ->
        fst (run w (queryMesosState url) n) = Panicked (PanicError NewRequestError)
        /\ sent (snd (run w (queryMesosState url) n)) = sent n)
    /\ (forall mip mport mapi sip : string,
          exists k,
            isSlaveRegistered (mesosHostPort mip mport) mapi sip
            = bind (queryMesosState
                      ("http://" ++ mip ++ ":" ++ mport ++ "/" ++ mapi)) k).
Proof.
  intros w url n. repeat split.
  - intro H. rewrite run_queryMesosState, H.
    destruct (roundTrip w (length (sent n)) (post url)) as [[status [|s]]|err];
      reflexivity.
  - rewrite run_queryMesosState, H. reflexivity.
  - rewrite run_queryMesosState, H. reflexivity.
  - intros mip mport mapi sip. eexists.
    unfold isSlaveRegistered, stateURL, mesosHostPort. cbv zeta.
    rewrite !append_assoc. reflexivity.
Qed.

Lemma queryMesosState_calls_client_do_once_witness :
  sent (snd (run Examples.leaderAtOnce
               (queryMesosState "http://10.0.0.2:5050//state") quiet))
  = [{| Method := "POST"; URL := "http://10.0.0.2:5050//state";
        RequestBody := EmptyString |}].
Proof.
  apply (proj1 (queryMesosState_calls_client_do_once
                  Examples.leaderAtOnce "http://10.0.0.2:5050//state" quiet)).
  reflexivity.
Defined.

(** C3, as stated, fails: a first answer with no elected_time although
    leader = pid does not satisfy [electedTime != 0 && leader == pid], and
    yet no follow-up query is made: the document is used as it is. *)
Lemma unelected_self_view_is_not_redirected :
  isLeaderView Examples.unelectedSelf = false
  /\ run Examples.unelectedSelfWorld
       (isSlaveRegistered "10.0.0.2:5050" "/state" Examples.target) quiet
     = (Returned false, answered "http://10.0.0.2:5050//state" "200 OK" quiet)
  /\ sent (answered "http://10.0.0.2:5050//state" "200 OK" quiet)
     = [post "http://10.0.0.2:5050//state"].
Proof. repeat split; reflexivity. Qed.

(** C3, amended.  The redirect is taken exactly for a first answer with
    [electedTime == 0 && leader != pid].  Every other first answer, among
    them every one with [electedTime != 0 && leader == pid], is used
    unchanged: the result is the scan of its own worker list and nothing
    further is sent.  For an answer with [electedTime == 0 && leader != pid]
    whose leader string has a piece after its first '@', the rest of the
    call is exactly one call of [queryMesosState] for that host:port with
    the same path, followed by the scan, so that when this request can be
    built the call has sent two requests in all, and never more. *)
Theorem isSlaveRegistered_redirects_only_follower_view :
  forall (w : World) (hp api ip status : string) (s : MesosState) (n : Net),
    rejectsURL w (stateURL hp api) = false ->
    roundTrip w (length (sent n)) (post (stateURL hp api))
      = inl {| Status := status; Body := JSON s |} ->
    let n1 := answered (stateURL hp api) status n in
    (isLeaderView s = true -> isFollowerView s = false)
    /\ (isFollowerView s = false ->
        run w (isSlaveRegistered hp api ip) n
          = (Returned (scanSlaves (Slaves s) ip), n1)
        /\ sent n1 = (sent n ++ [post (stateURL hp api)])%list)
    /\ (isFollowerView s = true ->
        forall newHostPort,
          nth_error (Split (Leader s) at_sign) 1 = Some newHostPort ->
          run w (isSlaveRegistered hp api ip) n
            = run w (askLeader newHostPort api ip) n1
          /\ (rejectsURL w (stateURL newHostPort api) = false ->
              sent (snd (run w (isSlaveRegistered hp api ip) n))
                = (sent n ++ [post (stateURL hp api);
                              post (stateURL newHostPort api)])%list)).
Proof.
  intros w hp api ip status s n Hurl Hreply n1.
  pose proof (run_isSlaveRegistered_decoded w hp api ip n Hurl Hreply) as Hrun.
  cbv zeta in Hrun. fold n1 in Hrun.
  split; [|split].
  - unfold isLeaderView, isFollowerView. intro H.
    apply andb_true_iff in H as [H _]. apply negb_true_iff in H.
    rewrite H. reflexivity.
  - intro Hf. rewrite Hf in Hrun. split; [exact Hrun | reflexivity].
  - intros Hf hp' Hsplit. rewrite Hf, Hsplit in Hrun. split; [exact Hrun|].
    intro Hurl2. rewrite Hrun, run_askLeader, run_queryMesosState, Hurl2.
    assert (Hsent : sent (send (post (stateURL hp' api))
                            (say (querying (stateURL hp' api)) n1))
                    = (sent n ++ [post (stateURL hp api);
                                  post (stateURL hp' api)])%list).
    { unfold n1, answered. cbn [say send sent]. rewrite <- app_assoc. reflexivity. }
    destruct (roundTrip w (length (sent n1)) (post (stateURL hp' api)))
      as [[status2 [|s2]]|err]; cbn [snd Body Status]; unfold answered;
      cbn [say send sent] in *; exact Hsent.
Qed.

Lemma isSlaveRegistered_redirect_witness :
  run Examples.followerThenLeader
      (isSlaveRegistered "10.0.0.5:5050" "/state" Examples.target) quiet
  = run Examples.followerThenLeader
      (askLeader "10.0.0.2:5050" "/state" Examples.target)
      (answered (stateURL "10.0.0.5:5050" "/state") "200 OK" quiet)
  /\ (rejectsURL Examples.followerThenLeader (stateURL "10.0.0.2:5050" "/state")
        = false ->
      sent (snd (run Examples.followerThenLeader
                   (isSlaveRegistered "10.0.0.5:5050" "/state" Examples.target)
                   quiet))
      = (sent quiet ++ [post (stateURL "10.0.0.5:5050" "/state");
                        post (stateURL "10.0.0.2:5050" "/state")])%list).
Proof.
  refine (proj2 (proj2 (isSlaveRegistered_redirects_only_follower_view
                   Examples.followerThenLeader "10.0.0.5:5050" "/state"
                   Examples.target (status := "200 OK")
                   (s := Examples.followerView) quiet _ _)) _ "10.0.0.2:5050" _);
    reflexivity.
Defined.

(** C4 (the code breaks it).  When the first answer asks for the redirect
    and its leader string has no '@', [strings.Split(...)[1]] is out of
    range: [isSlaveRegistered] does not report a non-match, it panics, which
    ends the process. *)
Theorem isSlaveRegistered_panics_on_leader_without_at :
  forall (w : World) (hp api ip status : string) (s : MesosState) (n : Net),
    rejectsURL w (stateURL hp api) = false ->
    roundTrip w (length (sent n)) (post (stateURL hp api))
      = inl {| Status := status; Body := JSON s |} ->
    isFollowerView s = true ->
    hasAt (Leader s) = false ->
    run w (isSlaveRegistered hp api ip) n
      = (Panicked IndexOutOfRange, answered (stateURL hp api) status n).
Proof.
  intros w hp api ip status s n Hurl Hreply Hf Hat.
  rewrite (run_isSlaveRegistered_decoded w hp api ip n Hurl Hreply). cbv zeta.
  rewrite Hf, (Split_without_separator _ Hat). reflexivity.
Qed.

Lemma isSlaveRegistered_panics_on_leader_without_at_witness :
  run Examples.noAtWorld
      (isSlaveRegistered "10.0.0.5:5050" "/state" Examples.target) quiet
  = (Panicked IndexOutOfRange,
     answered (stateURL "10.0.0.5:5050" "/state") "200 OK" quiet).
Proof.
  apply (isSlaveRegistered_panics_on_leader_without_at
           Examples.noAtWorld "10.0.0.5:5050" "/state" Examples.target
           (s := Examples.followerNoAt) quiet); reflexivity.
Defined.

(** C8 (the code breaks it).  The error of the redirected query is
    assigned and never looked at (line 122): when its answer does not
    decode, the snapshot pointer is nil and the worker scan of line 128
    follows it, a nil-pointer panic.  No failure is reported before the
    scan. *)
Theorem isSlaveRegistered_scans_nil_after_failed_redirect :
  forall (w : World) (hp api ip status status2 newHostPort : string)
         (s : MesosState) (n : Net),
    rejectsURL w (stateURL hp api) = false ->
    roundTrip w (length (sent n)) (post (stateURL hp api))
      = inl {| Status := status; Body := JSON s |} ->
    isFollowerView s = true ->
    nth_error (Split (Leader s) at_sign) 1 = Some newHostPort ->
    rejectsURL w (stateURL newHostPort api) = false ->
    roundTrip w (S (length (sent n))) (post (stateURL newHostPort api))
      = inl {| Status := status2; Body := NotJSON |} ->
    run w (isSlaveRegistered hp api ip) n
      = (Panicked NilDereference,
         answered (stateURL newHostPort api) status2
           (answered (stateURL hp api) status n)).
Proof.
  intros w hp api ip status status2 hp' s n Hurl Hreply Hf Hsplit Hurl2 Hreply2.
  rewrite (run_isSlaveRegistered_decoded w hp api ip n Hurl Hreply). cbv zeta.
  rewrite Hf, Hsplit, run_askLeader, run_queryMesosState, Hurl2.
  replace (length (sent (answered (stateURL hp api) status n)))
    with (S (length (sent n)))
    by (unfold answered; cbn [say send sent]; rewrite length_app; simpl; lia).
  rewrite Hreply2. reflexivity.
Qed.

Lemma isSlaveRegistered_scans_nil_witness :
  run Examples.followerThenGarbled
      (isSlaveRegistered "10.0.0.5:5050" "/state" Examples.target) quiet
  = (Panicked NilDereference,
     answered (stateURL "10.0.0.2:5050" "/state") "200 OK"
       (answered (stateURL "10.0.0.5:5050" "/state") "200 OK" quiet)).
Proof.
  apply (isSlaveRegistered_scans_nil_after_failed_redirect
           Examples.followerThenGarbled "10.0.0.5:5050" "/state" Examples.target
           (s := Examples.followerView) quiet); reflexivity.
Defined.

(** ** The two goroutines: an invariant of every run *)

Unset Implicit Arguments.

Lemma stamps_later (h : list (Z * Event)) (t t' : Z) :
  t <= t' ->
  Forall (fun te => fst te <= t) h -> Forall (fun te => fst te <= t') h.
Proof.
  intros Hle H. eapply Forall_impl; [|exact H]. simpl. intros; lia.
Qed.

Lemma verdict_extend (b : bool) (dl t t' : Z) (h new : list (Z * Event)) :
  verdict b dl t h ->
  t <= t' ->
  (forall t0 v, In (t0, Delivered v) new -> t <= t0) ->
  verdict b dl t' (new ++ h).
Proof.
  intros [Ht Hf] Hnow Hnew. split.
  - intro Hb. destruct (Ht Hb) as [t0 [Hin Hlt]]. exists t0. split; [|exact Hlt].
    apply in_or_app. now right.
  - intro Hb. destruct (Hf Hb) as [Hin [Hle Hall]]. repeat split.
    + apply in_or_app. now right.
    + lia.
    + intros t0 v Hd. apply in_app_or in Hd as [Hd|Hd].
      * specialize (Hnew _ _ Hd). lia.
      * eauto.
Qed.

Lemma verdict_cons (b : bool) (dl t t0 : Z) (e : Event) (h : list (Z * Event)) :
  verdict b dl t h ->
  (isDelivered e = true -> t <= t0) ->
  verdict b dl t ((t0, e) :: h).
Proof.
  intros Hv He. apply (verdict_extend b dl t t h [(t0, e)] Hv); [lia|].
  intros t1 v [Heq|[]]. inversion Heq; subst. apply He. reflexivity.
Qed.

Lemma verdict_later (b : bool) (dl t t' : Z) (h : list (Z * Event)) :
  verdict b dl t h -> t <= t' -> verdict b dl t' h.
Proof.
  intros Hv Hle. apply (verdict_extend b dl t t' h [] Hv Hle). intros ? ? [].
Qed.

Lemma signalThenClose_cons (t : Z) (e : Event) (h : list (Z * Event)) :
  signalThenClose h ->
  isSignalled e = false -> isDoneClosed e = false ->
  signalThenClose ((t, e) :: h).
Proof.
  intros (newer & between & older & t1 & t2 & Hh & Hle & Hs & Hd) He1 He2.
  exists ((t, e) :: newer), between, older, t1, t2. repeat split; auto.
  - rewrite Hh. reflexivity.
  - unfold count in *. simpl. rewrite He1. exact Hs.
  - unfold count in *. simpl. rewrite He2. exact Hd.
Qed.

Lemma Inv_initial : Inv initial.
Proof.
  constructor; simpl; try lia; auto.
  - intro H; congruence.
  - unfold phase_ok; simpl; auto.
  - unfold loop_ok; simpl; auto.
  - unfold proc_ok; simpl; auto.
Qed.


Lemma count_cons (kind : Event -> bool) (t : Z) (e : Event) (h : list (Z * Event)) :
  count kind ((t, e) :: h) = if kind e then S (count kind h) else count kind h.
Proof. unfold count. simpl. destruct (kind e); reflexivity. Qed.

Lemma stamp_of (h : list (Z * Event)) (nw t : Z) (e : Event) :
  Forall (fun te => fst te <= nw) h -> In (t, e) h -> t <= nw.
Proof.
  intros HF Hin. rewrite Forall_forall in HF. exact (HF _ Hin).
Qed.

Lemma count_zero (kind : Event -> bool) (h : list (Z * Event)) (t : Z) (e : Event) :
  count kind h = 0%nat -> In (t, e) h -> kind e = false.
Proof.
  induction h as [|[t0 e0] h IH]; [intros _ []|].
  rewrite count_cons. destruct (kind e0) eqn:He0; [discriminate|].
  intros Hz [Heq|Hin]; [inversion Heq; subst; exact He0 | auto].
Qed.

Lemma signalThenClose_intro (h : list (Z * Event)) (t t2 : Z) :
  In (t, Signalled) h ->
  t <= t2 ->
  count isSignalled h = 1%nat -> count isDoneClosed h = 0%nat ->
  signalThenClose ((t2, DoneClosed) :: h).
Proof.
  intros Hin Hle Hs Hd. apply in_split in Hin as [between [older Hh]].
  exists [], between, older, t, t2. split; [|split; [|split]].
  - simpl. rewrite Hh. reflexivity.
  - exact Hle.
  - rewrite count_cons. simpl. exact Hs.
  - rewrite count_cons. simpl. rewrite Hd. reflexivity.
Qed.

Lemma verdict_timed_out (dl t : Z) (h : list (Z * Event)) :
  In (dl, Decided TimedOut) h ->
  count isDelivered h = 0%nat ->
  dl <= t ->
  verdict false dl t h.
Proof.
  intros Hin Hz Hle. split; [discriminate|]. intros _. repeat split; auto.
  intros t' v Hd. apply (count_zero _ _ _ _ Hz) in Hd. discriminate.
Qed.

Ltac break :=
  repeat match goal with
         | H : _ /\ _ |- _ => destruct H
         | H : exists _, _ |- _ => destruct H
         | H : _ \/ _ |- _ => destruct H
         | H : Some _ = Some _ |- _ => inversion H; clear H
         | H : (_, _) = (_, _) |- _ => inversion H; clear H
         end.

Ltac verd :=
  first [ eassumption
        | apply verdict_cons; [verd | simpl; intros; first [lia | discriminate]]
        | eapply verdict_later; [eassumption | lia] ].

Ltac leaf :=
  first [ reflexivity | assumption | discriminate | congruence | lia
        | verd
        | apply verdict_timed_out;
          [simpl; auto | rewrite ?count_cons; simpl; assumption | lia]
        | eapply signalThenClose_intro;
          [eassumption | eapply stamp_of; eassumption | assumption | assumption]
        | apply signalThenClose_cons; [eassumption | reflexivity | reflexivity]
        | split; [intros _; eexists; split; [simpl; eauto | lia] | discriminate]
        | solve [eauto] ].

Ltac go :=
  match goal with
  | |- exists _, _ => eexists; go
  | |- _ /\ _ => split; go
  | |- _ \/ _ => first [left; go | right; go]
  | |- _ => leaf
  end.

Ltac solve_phase :=
  rewrite ?count_cons in *; simpl in *; break; subst; simpl in *;
  try solve [ discriminate | congruence | lia | go ].

(** Every step keeps the invariant. *)
Section Invariant.

Variable w : World.
Variables mip mport mapi sip : string.

Lemma Inv_arrive st st' : Inv st -> arrive w st = Some st' -> Inv st'.
Proof.
  intros [Hc Hs Hcap Hb Hph Hl Hp] H. unfold arrive in H.
  destruct st as [nw pr nt sc dc tm lp sp h]. simpl in *.
  destruct lp; try discriminate. inversion H; subst; clear H.
  unfold phase_ok, loop_ok, proc_ok in *.
  constructor; unfold phase_ok, loop_ok, proc_ok; simpl in *; auto.
  - destruct sp; solve_phase.
  - destruct pr; solve_phase.
Qed.


Lemma Second_pos : 0 < Second.
Proof. reflexivity. Qed.

Ltac fresh_inv Hcap :=
  constructor; unfold phase_ok, loop_ok, proc_ok; simpl in *; auto;
  try (repeat (constructor; simpl; try lia); auto; fail);
  try (intros _; destruct Hcap as [? ?]; [discriminate | simpl; auto; fail]);
  try lia.

Lemma Inv_loop st st' :
  Inv st -> proc st = Running ->
  asyncQueryRegistration w mip mport mapi sip st = Some st' -> Inv st'.
Proof.
  intros [Hc Hs Hcap Hb Hph Hl Hp] Hrun H. unfold asyncQueryRegistration in H.
  destruct st as [nw pr nt sc dc tm lp sp h]. simpl in *. subst pr.
  unfold phase_ok, loop_ok, proc_ok in *. simpl in *.
  pose proof Second_pos as Hsec.
  destruct lp as [| |p|n req k| | |dl| |e|]; try discriminate.
  - (* LCall *)
    inversion H; subst; clear H. fresh_inv Hcap.
    destruct sp; solve_phase.
  - (* LRun *)
    destruct p as [b|x|c|o k|m u bd k|req k]; inversion H; subst; clear H;
      fresh_inv Hcap; try (destruct sp; solve_phase; fail).
    all: destruct b; destruct sp; solve_phase.
  - (* LSend *)
    rewrite Hl in H.
    assert (Hsend : sp <> SStart -> trySend true sc = if (length (buf sc) <? 1)%nat then SendOk {| buf := buf sc ++ [true]; cap := 1; closed := false |} else SendBlocks).
    { intro Hne. destruct (Hcap Hne) as [Hcs _]. unfold trySend. rewrite Hl, Hcs. reflexivity. }
    destruct sp as [| |dl|c|b|b|b]; try (rewrite Hsend in H by congruence);
      try (destruct (length (buf sc) <? 1)%nat eqn:Hlen; [apply Nat.ltb_lt in Hlen|discriminate]);
      try (destruct (buf sc) eqn:Hbuf; [|simpl in Hlen; lia]);
      inversion H; subst; clear H; fresh_inv Hcap; solve_phase.
  - (* LSelect *)
    unfold recv in H.
    destruct sp; simpl in Hph; break; subst; try discriminate; simpl in H;
      repeat match goal with
             | Hx : buf dc = _ |- _ => rewrite Hx in H
             | Hx : closed dc = _ |- _ => rewrite Hx in H
             end;
      try (destruct (buf dc) eqn:?);
      inversion H; subst; clear H; fresh_inv Hcap; solve_phase.
  - (* LDone *)
    unfold tryClose in H. simpl in H. rewrite Hl in H.
    destruct sp; simpl in H; inversion H; subst; clear H;
      simpl in Hph; break; subst; try discriminate;
      fresh_inv Hcap; solve_phase.
  - (* LCheck *)
    destruct Hl as [-> Hl]. inversion H; subst; clear H.
    fresh_inv Hcap. destruct sp; solve_phase.
Qed.




Lemma Inv_sup st st' :
  Inv st -> proc st = Running ->
  waitForMesosSlaveRegistration sip st = Some st' -> Inv st'.
Proof.
  intros [Hc Hs Hcap Hb Hph Hl Hp] Hrun H. unfold waitForMesosSlaveRegistration in H.
  destruct st as [nw pr nt sc dc tm lp sp h]. simpl in *. subst pr.
  unfold phase_ok, loop_ok, proc_ok in *. simpl in *.
  pose proof Second_pos as Hsec.
  destruct sp as [| |dl|c|b|b|b]; try discriminate.
  - (* SStart *)
    inversion H; subst; clear H. break; subst. fresh_inv Hcap; solve_phase.
  - (* SSelect *)
    unfold recv in H. simpl in H.
    assert (Hopen : closed sc = false).
    { destruct lp; simpl in Hph; break; subst; try discriminate; auto. }
    rewrite Hopen in H. break; subst.
    all: match goal with Hx : buf _ = _ |- _ => rewrite Hx in H end;
      inversion H; subst; clear H; fresh_inv Hcap;
      try (destruct lp; solve_phase; fail).
    eexists; split; [reflexivity|]. split; [|go].
    split; [intros _|discriminate].
    match goal with Hin : In (?t, Delivered true) h |- _ =>
      exists t; split; [right; exact Hin | pose proof (stamp_of _ _ _ _ Hs Hin); lia] end.
  - (* SCase *)
    inversion H; subst; clear H. fresh_inv Hcap; try (destruct lp; solve_phase; fail).
  - (* SSignal *)
    break; subst. simpl in H.
    destruct lp; simpl in H; inversion H; subst; clear H; fresh_inv Hcap; solve_phase.
  - (* SClose *)
    break; unfold tryClose in H;
      match goal with Hx : closed dc = false |- _ => rewrite Hx in H end; simpl in H.
    all: destruct lp; try discriminate; simpl in H; inversion H; subst; clear H;
      fresh_inv Hcap; solve_phase.
Qed.

Lemma Inv_advance d st st' :
  Inv st -> proc st = Running -> advance d st = Some st' -> Inv st'.
Proof.
  intros [Hc Hs Hcap Hb Hph Hl Hp] Hrun H. unfold advance in H.
  destruct (d <=? 0) eqn:Hd; [discriminate|]. apply Z.leb_gt in Hd.
  destruct st as [nw pr nt sc dc tm lp sp h]. simpl in *. subst pr.
  unfold phase_ok, loop_ok, proc_ok in *. simpl in *.
  assert (Hs' : Forall (fun te => fst te <= nw + d) h).
  { apply (stamps_later h nw); [lia | exact Hs]. }
  destruct lp; simpl in H;
    try match type of H with context [?a <=? ?b] =>
      destruct (a <=? b) eqn:Hlp; [apply Z.leb_le in Hlp | apply Z.leb_gt in Hlp] end;
    simpl in H;
    destruct sp; simpl in H;
    try match type of H with context [?a <=? ?b] =>
      destruct (a <=? b) eqn:Hsp; [apply Z.leb_le in Hsp | apply Z.leb_gt in Hsp] end;
    simpl in H; inversion H; subst; clear H; fresh_inv Hcap; solve_phase.
Qed.

Lemma Inv_step a st st' :
  Inv st -> step w mip mport mapi sip a st = Some st' -> Inv st'.
Proof.
  intros HI H. unfold step in H.
  destruct (proc st) eqn:Hrun; try discriminate.
  destruct a.
  - exact (Inv_advance d st st' HI Hrun H).
  - exact (Inv_sup st st' HI Hrun H).
  - exact (Inv_loop st st' HI Hrun H).
  - exact (Inv_arrive st st' HI H).
Qed.

Lemma Inv_exec schedule : forall st st',
  Inv st -> exec w mip mport mapi sip schedule st = Some st' -> Inv st'.
Proof.
  induction schedule as [|a rest IH]; intros st st' HI H; simpl in H.
  - inversion H; subst; exact HI.
  - destruct (step w mip mport mapi sip a st) as [st1|] eqn:Hstep; [|discriminate].
    exact (IH st1 st' (Inv_step a st st1 HI Hstep) H).
Qed.

Lemma Inv_reachable st : reachable w mip mport mapi sip st -> Inv st.
Proof.
  intros [schedule H]. exact (Inv_exec schedule initial st Inv_initial H).
Qed.
End Invariant.

(** ** Bounds on the calls of one tick, and further invariants *)

Lemma atMost_mono {A : Type} (p : Prog A) :
  forall m m', (m <= m')%nat -> atMost p m -> atMost p m'.
Proof.
  induction p as [a|x|c|o k IH|me u b k IH|req k IH];
    intros m m' Hle H; simpl in *; auto.
  - eapply IH; eauto.
  - intro r. eapply IH; eauto.
  - destruct m as [|m]; [contradiction|]. destruct m' as [|m']; [lia|].
    intro r. apply (IH r m m'); [lia | apply H].
Qed.

Lemma atMost_bind {A B : Type} (p : Prog A) (f : A -> Prog B) :
  forall a b, atMost p a -> (forall x, atMost (f x) b) ->
              atMost (bind p f) (a + b).
Proof.
  induction p as [x|x|c|o k IH|me u bd k IH|req k IH]; simpl; intros a b Hp Hf.
  - apply (atMost_mono (f x) b); [lia | apply Hf].
  - exact I.
  - exact I.
  - apply IH; auto.
  - intro r. apply IH; auto.
  - destruct a as [|a]; [contradiction|]. simpl. intro r. apply IH; auto.
Qed.

Lemma atMost_queryMesosState (url : string) : atMost (queryMesosState url) 1.
Proof.
  unfold queryMesosState. simpl. intros [req|err]; simpl; auto.
  intros [[status [|s]]|err']; simpl; auto.
Qed.

Lemma atMost_isSlaveRegistered (hp api ip : string) :
  atMost (isSlaveRegistered hp api ip) 2.
Proof.
  unfold isSlaveRegistered.
  apply (atMost_bind _ _ 1 1); [apply atMost_queryMesosState|].
  intros [[s|] [e|]]; cbn -[queryMesosState]; auto.
  destruct (isFollowerView s); cbn -[queryMesosState]; auto.
  unfold index. destruct (nth_error (Split (Leader s) at_sign) 1) as [hp'|];
    cbn -[queryMesosState]; auto.
  apply (atMost_bind _ _ 1 0); [apply atMost_queryMesosState|].
  intros [[s2|] e2]; simpl; auto.
Qed.

Lemma count_app (kind : Event -> bool) (h1 h2 : list (Z * Event)) :
  count kind (h1 ++ h2) = (count kind h1 + count kind h2)%nat.
Proof.
  unfold count. rewrite filter_app, length_app. reflexivity.
Qed.

Ltac destruct_scrutinee x :=
  lazymatch x with
  | context [match ?y with _ => _ end] => destruct_scrutinee y
  | _ => destruct x eqn:?
  end.

Ltac sys_simpl :=
  cbn [now proc net stateChan doneChan supTimer loop sup history
       with_now with_proc with_net with_stateChan with_doneChan with_supTimer
       with_loop with_sup record_at record buf cap closed make
       isRegistered_of stopping parked budget] in *.

(** Take a step apart into the cases of the statement executed. *)
Ltac step_cases H :=
  unfold step, advance, waitForMesosSlaveRegistration, asyncQueryRegistration,
    arrive, trySend, tryClose, recv, release_sup, release_loop in H;
  sys_simpl;
  repeat match type of H with
         | context [match ?x with _ => _ end] =>
             destruct_scrutinee x; sys_simpl; try discriminate
         end;
  inversion H; subst; clear H; sys_simpl.

Section Runs.

Variable w : World.
Variables mip mport mapi sip : string.

Lemma pristine_step a st st' :
  pristine_ok st -> step w mip mport mapi sip a st = Some st' -> pristine_ok st'.
Proof.
  unfold pristine_ok. intros HP H.
  destruct st as [nw pr nt sc dc tm lp sp h]. sys_simpl.
  destruct a; step_cases H; rewrite ?count_cons; simpl; auto; try discriminate.
  all: intro Hz; specialize (HP Hz); congruence.
Qed.

Lemma pristine_reachable st : reachable w mip mport mapi sip st -> pristine_ok st.
Proof.
  intros [schedule H]. revert H.
  assert (G : forall st0, pristine_ok st0 ->
                exec w mip mport mapi sip schedule st0 = Some st -> pristine_ok st).
  { induction schedule as [|a rest IH]; intros st0 H0 H; simpl in H.
    - inversion H; subst; exact H0.
    - destruct (step w mip mport mapi sip a st0) as [st1|] eqn:Hstep; [|discriminate].
      exact (IH st1 (pristine_step a st0 st1 H0 Hstep) H). }
  apply G. intro; reflexivity.
Qed.

Lemma tick_step a st st' :
  tick_ok st -> step w mip mport mapi sip a st = Some st' -> tick_ok st'.
Proof.
  unfold tick_ok, budget. intros HT H.
  destruct st as [nw pr nt sc dc tm lp sp h]. sys_simpl.
  destruct a; step_cases H; auto; try discriminate;
    try exact (atMost_isSlaveRegistered _ _ _).
  intro r. eapply atMost_mono; [|apply HT]. lia.
Qed.

Lemma sinceSignal_some (h since : list (Z * Event)) :
  sinceSignal h = Some since -> (1 <= count isSignalled h)%nat.
Proof.
  revert since. induction h as [|[t e] h IH]; intros since H; simpl in H.
  - discriminate.
  - rewrite count_cons. destruct (isSignalled e); [lia|].
    destruct (sinceSignal h) as [newer|]; [|discriminate]. eapply IH; reflexivity.
Qed.

Lemma sinceSignal_none (h : list (Z * Event)) :
  sinceSignal h = None -> count isSignalled h = 0%nat.
Proof.
  induction h as [|[t e] h IH]; intros H; simpl in H; [reflexivity|].
  rewrite count_cons. destruct (isSignalled e); [discriminate|].
  destruct (sinceSignal h); [discriminate | auto].
Qed.

(** Once the stop signal is on record the loop is not blocked in its
    select, and it has either taken the signal or will find it ready. *)
Lemma signalled_loop st :
  Inv st -> (1 <= count isSignalled (history st))%nat ->
  parked (loop st) = false
  /\ (stopping (loop st) = true \/ ready (doneChan st) = true).
Proof.
  intros [Hc Hs Hcap Hb Hph Hl Hp] Hn. unfold phase_ok in Hph.
  destruct (sup st).
  - destruct Hph as (_ & Hh & _). rewrite Hh in Hn. unfold count in Hn.
    simpl in Hn. lia.
  - destruct Hph as (_ & _ & _ & Hz & _). lia.
  - destruct Hph as (_ & _ & _ & _ & Hz & _). lia.
  - destruct Hph as (dl & _ & _ & _ & _ & _ & Hz & _). lia.
  - destruct Hph as (dl & _ & _ & _ & _ & Hz & _). lia.
  - destruct Hph as (dl & _ & _ & _ & _ & Hpk & Hor & _). split; [exact Hpk|].
    destruct Hor as [[Hst _]|[_ Hbuf]]; [left; exact Hst|right].
    unfold ready. rewrite Hbuf. reflexivity.
  - destruct Hph as (dl & _ & _ & Hcl & Hpk & _). split; [exact Hpk|right].
    unfold ready. rewrite Hcl. destruct (buf (doneChan st)); reflexivity.
Qed.

Lemma count_nil (kind : Event -> bool) : count kind [] = 0%nat.
Proof. reflexivity. Qed.

Ltac after_goal :=
  cbn [atMost] in *; rewrite ?count_nil;
  repeat match goal with
         | H : ?l = ?l -> _ |- _ => specialize (H eq_refl)
         | H : _ /\ _ |- _ => destruct H
         | H : exists _, _ |- _ => destruct H
         | H : match ?m with O => False | S _ => _ end |- _ =>
             destruct m; [contradiction|]
         end;
  split; [lia|];
  split; [intro; first [discriminate | split; lia]|];
  match goal with
  | |- exists _, _ /\ True => exists 0%nat; split; [lia | exact I]
  | H : atMost ?p ?m |- exists _, _ /\ atMost ?p _ =>
      exists m; split; [lia | exact H]
  | H : forall r, atMost (?k r) ?m |- exists _, _ /\ atMost (?k _) _ =>
      exists m; split; [lia | apply H]
  | H : forall r, atMost (?k r) ?m |- exists _, _ /\ (forall r, atMost (?k r) _) =>
      exists m; split; [lia | exact H]
  | |- exists _, _ /\ atMost (isSlaveRegistered _ _ _) _ =>
      exists 2%nat; split; [lia | apply atMost_isSlaveRegistered]
  end.

Lemma afterSignal_step a st st' :
  Inv st -> tick_ok st -> afterSignal_ok st ->
  step w mip mport mapi sip a st = Some st' -> afterSignal_ok st'.
Proof.
  intros HI HT HA H.
  pose proof (signalled_loop st HI) as Hsig.
  destruct HI as [Hc Hs Hcap Hb Hph Hl Hp].
  unfold afterSignal_ok, tick_ok, phase_ok, loop_ok in *.
  destruct st as [nw pr nt sc dc tm lp sp h]. sys_simpl.
  destruct a; step_cases H; cbn [sinceSignal isSignalled];
    try (destruct (sinceSignal h) as [since|] eqn:Hsince;
         [pose proof (sinceSignal_some _ _ Hsince) as Hone;
          specialize (Hsig Hone); cbn [parked stopping] in Hsig | exact I]);
    rewrite ?count_cons; cbn [isTickStarted isIssued]; break; subst;
    try discriminate; auto;
    try solve [after_goal];
    try solve [split; [assumption | split; [assumption | eexists; split; eassumption]]].
Qed.

Lemma exec_app (s1 s2 : list Action) (st : Sys) :
  exec w mip mport mapi sip (s1 ++ s2)%list st =
  match exec w mip mport mapi sip s1 st with
  | Some st1 => exec w mip mport mapi sip s2 st1
  | None => None
  end.
Proof.
  revert st. induction s1 as [|a s1 IH]; intro st; simpl; [reflexivity|].
  destruct (step w mip mport mapi sip a st); [apply IH | reflexivity].
Qed.

(** Induction over the runs. *)
Lemma reachable_ind (P : Sys -> Prop) :
  P initial ->
  (forall a st st',
      reachable w mip mport mapi sip st -> P st ->
      step w mip mport mapi sip a st = Some st' -> P st') ->
  forall st, reachable w mip mport mapi sip st -> P st.
Proof.
  intros H0 Hstep st [schedule H]. revert st H.
  induction schedule as [|a schedule IH] using rev_ind; intros st H.
  - inversion H; subst. exact H0.
  - rewrite exec_app in H.
    destruct (exec w mip mport mapi sip schedule initial) as [st1|] eqn:H1;
      [|discriminate].
    simpl in H.
    destruct (step w mip mport mapi sip a st1) as [st2|] eqn:H2; [|discriminate].
    inversion H; subst.
    apply (Hstep a st1 st); auto. exists schedule. exact H1.
Qed.

Lemma reachable_exec (schedule : list Action) (st st' : Sys) :
  reachable w mip mport mapi sip st ->
  exec w mip mport mapi sip schedule st = Some st' ->
  reachable w mip mport mapi sip st'.
Proof.
  intros [s0 H0] H. exists (s0 ++ schedule)%list. rewrite exec_app, H0. exact H.
Qed.

Lemma tick_reachable st : reachable w mip mport mapi sip st -> tick_ok st.
Proof.
  apply reachable_ind; [exact I|]. intros a s s' _. apply tick_step.
Qed.

Lemma afterSignal_reachable st :
  reachable w mip mport mapi sip st -> afterSignal_ok st.
Proof.
  apply reachable_ind; [exact I|]. intros a s s' Hr HA Hs.
  apply (afterSignal_step a s s'); auto.
  - apply (Inv_reachable w mip mport mapi sip). exact Hr.
  - apply tick_reachable. exact Hr.
Qed.







End Runs.

(** ** The supervisor always gets through *)

Section Progress.

Variable w : World.
Variables mip mport mapi sip : string.

(** The supervisor is never held up by the loop: each of its statements
    can run, none panics, and a blocked select is released by its timer. *)
Lemma sup_moves st :
  Inv st -> proc st = Running ->
  match sup st with
  | SStart =>
      exists st', step w mip mport mapi sip StepSup st = Some st'
                  /\ proc st' = Running /\ sup st' = SSelect
  | SSelect =>
      exists st', step w mip mport mapi sip StepSup st = Some st'
                  /\ proc st' = Running
                  /\ now st' = now st
                  /\ supTimer st' = Some (now st + 90 * Second)
                  /\ (sup st' = SParked (now st + 90 * Second)
                      \/ sup st' = SCase (GotState true))
  | SParked deadline =>
      exists st', step w mip mport mapi sip (Advance (deadline - now st)) st = Some st'
                  /\ proc st' = Running
                  /\ sup st' = SCase TimedOut
                  /\ In (deadline, Decided TimedOut) (history st')
  | SCase c =>
      exists st', step w mip mport mapi sip StepSup st = Some st'
                  /\ proc st' = Running
                  /\ sup st' = SSignal (isRegistered_of c)
  | SSignal b =>
      exists st', step w mip mport mapi sip StepSup st = Some st'
                  /\ proc st' = Running
                  /\ sup st' = SClose b
                  /\ In (now st, Signalled) (history st')
                  /\ count isSignalled (history st') = 1%nat
  | SClose b =>
      exists st', step w mip mport mapi sip StepSup st = Some st'
                  /\ proc st' = Running
                  /\ sup st' = SReturned b
                  /\ closed (doneChan st') = true
                  /\ In (now st, DoneClosed) (history st')
  | SReturned _ => True
  end.
Proof.
  intros [Hc Hs Hcap Hb Hph Hl Hp] Hrun.
  unfold step, waitForMesosSlaveRegistration, advance.
  destruct st as [nw pr nt sc dc tm lp sp h]. simpl in *. subst pr.
  unfold phase_ok, loop_ok in *. simpl in *.
  destruct sp as [| |dl|c|b|b|b]; simpl in *; auto.
  - eexists; repeat split.
  - assert (Hopen : closed sc = false)
      by (destruct lp; break; subst; try discriminate; auto).
    unfold recv. simpl. rewrite Hopen.
    destruct Hph as (_ & _ & _ & _ & _ & [[Hbuf _]|[Hbuf _]]); rewrite Hbuf;
      eexists; repeat split; auto.
  - destruct Hph as (_ & Hlt & _).
    destruct (dl - nw <=? 0) eqn:Hd; [apply Z.leb_le in Hd; lia|].
    replace (nw + (dl - nw)) with dl by lia.
    unfold with_now, with_loop, with_sup, record_at.
    destruct lp; cbn [loop sup now history proc]; rewrite ?Z.leb_refl;
      try match goal with |- context [?a <=? dl] => destruct (a <=? dl) end;
      cbn [loop sup now history proc]; rewrite ?Z.leb_refl;
      eexists; repeat split; simpl; auto.
  - eexists; repeat split.
  - destruct Hph as (dl & _ & _ & -> & _ & Hz & _). simpl.
    destruct lp; simpl; eexists; repeat split; simpl; auto;
      rewrite ?count_cons; simpl; congruence.
  - destruct Hph as (dl & _ & _ & Hopen & _ & Hpk & _).
    unfold tryClose. rewrite Hopen.
    destruct lp; simpl in *; try discriminate; eexists; repeat split; simpl; auto.
Qed.

Lemma advance_leaves_decided d st :
  0 < d -> proc st = Running ->
  (forall deadline, sup st <> SParked deadline) ->
  exists st', step w mip mport mapi sip (Advance d) st = Some st'
              /\ proc st' = Running /\ sup st' = sup st.
Proof.
  intros Hd Hrun Hsup. unfold step, advance. rewrite Hrun.
  destruct (d <=? 0) eqn:E; [apply Z.leb_le in E; lia|].
  destruct st as [nw pr nt sc dc tm lp sp h]. simpl in *.
  unfold with_now, with_loop, with_sup, record_at.
  destruct lp; cbn [loop sup now history proc];
    try match goal with |- context [?a <=? ?b] => destruct (a <=? b) end;
    cbn [loop sup now history proc];
    (destruct sp; cbn [loop sup now history proc];
     try (eexists; repeat split; auto; fail)).
  all: exfalso; eapply Hsup; reflexivity.
Qed.

Lemma Second_pos' : 0 < 90 * Second. Proof. reflexivity. Qed.

(** From wherever it stands, the supervisor reaches its return by its own
    statements alone. *)
Lemma sup_finishes st :
  Inv st -> proc st = Running ->
  exists b st',
    exec w mip mport mapi sip (supRemaining st) st = Some st'
    /\ sup st' = SReturned b /\ proc st' = Running.
Proof.
  assert (Hclose : forall st b, Inv st -> proc st = Running -> sup st = SClose b ->
            exists st', exec w mip mport mapi sip [StepSup] st = Some st'
                        /\ sup st' = SReturned b /\ proc st' = Running).
  { intros st0 b HI Hrun Hs. pose proof (sup_moves st0 HI Hrun) as H.
    rewrite Hs in H. destruct H as (st1 & H1 & Hr1 & Hs1 & _).
    exists st1. simpl. rewrite H1. auto. }
  assert (Hsignal : forall st b, Inv st -> proc st = Running -> sup st = SSignal b ->
            exists st', exec w mip mport mapi sip [StepSup; StepSup] st = Some st'
                        /\ sup st' = SReturned b /\ proc st' = Running).
  { intros st0 b HI Hrun Hs. pose proof (sup_moves st0 HI Hrun) as H.
    rewrite Hs in H. destruct H as (st1 & H1 & Hr1 & Hs1 & _).
    destruct (Hclose st1 b (Inv_step _ _ _ _ _ _ _ _ HI H1) Hr1 Hs1) as (st2 & H2 & Hs2 & Hr2).
    exists st2. simpl in *. rewrite H1. auto. }
  assert (Hcase : forall st c, Inv st -> proc st = Running -> sup st = SCase c ->
            exists st', exec w mip mport mapi sip [StepSup; StepSup; StepSup] st = Some st'
                        /\ sup st' = SReturned (isRegistered_of c) /\ proc st' = Running).
  { intros st0 c HI Hrun Hs. pose proof (sup_moves st0 HI Hrun) as H.
    rewrite Hs in H. destruct H as (st1 & H1 & Hr1 & Hs1).
    destruct (Hsignal st1 _ (Inv_step _ _ _ _ _ _ _ _ HI H1) Hr1 Hs1) as (st2 & H2 & Hs2 & Hr2).
    exists st2. simpl in *. rewrite H1. auto. }
  assert (Hselect : forall st, Inv st -> proc st = Running -> sup st = SSelect ->
            exists b st', exec w mip mport mapi sip
                            [StepSup; Advance (90 * Second); StepSup; StepSup; StepSup] st = Some st'
                        /\ sup st' = SReturned b /\ proc st' = Running).
  { intros st0 HI Hrun Hs. pose proof (sup_moves st0 HI Hrun) as H.
    rewrite Hs in H. destruct H as (st1 & H1 & Hr1 & Hn1 & _ & Hs1).
    pose proof (Inv_step _ _ _ _ _ _ _ _ HI H1) as HI1.
    assert (Hadv : exists c st2, step w mip mport mapi sip (Advance (90 * Second)) st1 = Some st2
                               /\ proc st2 = Running /\ sup st2 = SCase c).
    { destruct Hs1 as [Hs1|Hs1].
      - pose proof (sup_moves st1 HI1 Hr1) as H. rewrite Hs1 in H.
        destruct H as (st2 & H2 & Hr2 & Hs2 & _).
        replace (now st0 + 90 * Second - now st1) with (90 * Second) in H2 by lia.
        eauto.
      - destruct (advance_leaves_decided (90 * Second) st1 Second_pos' Hr1) as (st2 & H2 & Hr2 & Hs2).
        { intros dl. rewrite Hs1. discriminate. }
        rewrite Hs1 in Hs2. eauto. }
    destruct Hadv as (c & st2 & H2 & Hr2 & Hs2).
    destruct (Hcase st2 c (Inv_step _ _ _ _ _ _ _ _ HI1 H2) Hr2 Hs2) as (st3 & H3 & Hs3 & Hr3).
    exists (isRegistered_of c), st3. simpl in *. rewrite H1, H2. auto. }
  intros HI Hrun. unfold supRemaining.
  pose proof (sup_moves st HI Hrun) as H.
  destruct (sup st) eqn:Hs.
  - destruct H as (st1 & H1 & Hr1 & Hs1).
    destruct (Hselect st1 (Inv_step _ _ _ _ _ _ _ _ HI H1) Hr1 Hs1) as (b & st2 & H2 & Hs2 & Hr2).
    exists b, st2. simpl in *. rewrite H1. auto.
  - exact (Hselect st HI Hrun Hs).
  - destruct H as (st1 & H1 & Hr1 & Hs1 & _).
    destruct (Hcase st1 _ (Inv_step _ _ _ _ _ _ _ _ HI H1) Hr1 Hs1) as (st2 & H2 & Hs2 & Hr2).
    exists false, st2. simpl in *. rewrite H1. auto.
  - destruct (Hcase st c HI Hrun Hs) as (st2 & H2 & Hs2 & Hr2). eauto.
  - destruct (Hsignal st _ HI Hrun Hs) as (st2 & H2 & Hs2 & Hr2). eauto.
  - destruct (Hclose st _ HI Hrun Hs) as (st2 & H2 & Hs2 & Hr2). eauto.
  - exists isRegistered, st. simpl. auto.
Qed.

End Progress.

(** ** What the loop does around its select *)

Section LoopMoves.

Variable w : World.
Variables mip mport mapi sip : string.

(** What the loop does next from the places around its select. *)
Lemma loop_moves st :
  Inv st -> proc st = Running ->
  match loop st with
  | LSend =>
      buf (stateChan st) = [] ->
      exists st', step w mip mport mapi sip StepLoop st = Some st'
                  /\ proc st' = Running /\ loop st' = LSelect
                  /\ sent (net st') = sent (net st)
                  /\ In (now st, Delivered true) (history st')
  | LSelect =>
      exists st', step w mip mport mapi sip StepLoop st = Some st'
                  /\ proc st' = Running
                  /\ sent (net st') = sent (net st)
                  /\ loop st' = if ready (doneChan st) then LDone
                                else LParked (now st + 15 * Second)
  | LParked deadline =>
      ready (doneChan st) = false /\ now st < deadline
      /\ exists st', step w mip mport mapi sip (Advance (deadline - now st)) st = Some st'
                     /\ proc st' = Running /\ loop st' = LCall
                     /\ In (deadline, LoopWoke false) (history st')
  | LDone =>
      exists st', step w mip mport mapi sip StepLoop st = Some st'
                  /\ proc st' = Running /\ loop st' = LCheck true
                  /\ closed (stateChan st') = true
                  /\ sent (net st') = sent (net st)
                  /\ In (now st, OutClosed) (history st')
  | LCheck _ =>
      exists st', step w mip mport mapi sip StepLoop st = Some st'
                  /\ proc st' = Running /\ loop st' = LReturned
                  /\ sent (net st') = sent (net st)
  | _ => True
  end.
Proof.
  intros [Hc Hs Hcap Hb Hph Hl Hp] Hrun.
  unfold step, asyncQueryRegistration, advance.
  destruct st as [nw pr nt sc dc tm lp sp h]. simpl in *. subst pr.
  unfold phase_ok, loop_ok in *. simpl in *.
  destruct lp as [| |p|n req k| | |dl| |e|]; simpl in *; auto.
  - (* LSend *)
    intro Hbuf. rewrite Hl.
    assert (Hcs : cap sc = 1%nat).
    { apply Hcap. intro Hs0. rewrite Hs0 in Hph. destruct Hph; discriminate. }
    unfold trySend. rewrite Hl, Hbuf, Hcs. simpl.
    destruct sp; eexists; repeat split; simpl; auto.
  - (* LSelect *)
    unfold recv, ready.
    destruct (buf dc) as [|v rest]; [destruct (closed dc)|];
      eexists; repeat split.
  - (* LParked *)
    destruct Hl as [Hopen Hlt].
    assert (Hready : ready dc = false).
    { destruct sp; simpl in Hph; break; subst; try discriminate; reflexivity. }
    repeat split; auto.
    destruct (dl - nw <=? 0) eqn:Hd; [apply Z.leb_le in Hd; lia|].
    replace (nw + (dl - nw)) with dl by lia.
    unfold with_now, with_loop, with_sup, record_at.
    cbn [loop sup now history proc]. rewrite Z.leb_refl.
    cbn [loop sup now history proc].
    destruct sp; cbn [loop sup now history proc];
      try match goal with |- context [?a <=? dl] => destruct (a <=? dl) end;
      cbn [loop sup now history proc];
      eexists; repeat split; simpl; auto.
  - (* LDone *)
    unfold tryClose. rewrite Hl.
    destruct sp; simpl in Hph; break; subst; try discriminate;
      eexists; repeat split; simpl; auto.
  - (* LCheck *)
    eexists; repeat split. destruct Hl as [-> _]. reflexivity.
Qed.

End LoopMoves.

(** ** The race between the result and the timeout *)

(** C1, as stated, fails: when the first answer does not decode, line 111
    ends the process while the supervisor is blocked in its select.  No
    match is delivered, and [waitForMesosSlaveRegistration] does not return
    false at the timeout: it never returns, nothing moves any more. *)
Lemma exit_before_timeout_never_returns :
  match Examples.runFrom Examples.garbledAtOnce Examples.garbledRun with
  | Some st =>
      proc st = ExitStatus 1
      /\ sup st = SParked (90 * Second)
      /\ now st = 0
      /\ count isDelivered (history st) = 0%nat
      /\ forall a, step Examples.garbledAtOnce Examples.mip Examples.mport
                     Examples.mapi Examples.target a st = None
  | None => False
  end.
Proof. vm_compute. repeat split. Qed.

Lemma verdict_iff (b : bool) (deadline t : Z) (h : list (Z * Event)) :
  verdict b deadline t h ->
  (b = true <-> deliveredBefore deadline h)
  /\ (b = false -> In (deadline, Decided TimedOut) h).
Proof.
  intros [Ht Hf]. split; [split|].
  - exact Ht.
  - intros (t0 & Hin & Hlt). destruct b; [reflexivity|].
    destruct (Hf eq_refl) as (_ & _ & Hall). specialize (Hall _ _ Hin). lia.
  - intro Hb. apply (Hf Hb).
Qed.

(** C1, amended.  In every run: when [waitForMesosSlaveRegistration]
    returns, it returns true if and only if the loop delivered a match on
    the result channel strictly before the deadline of the 90-second timer
    armed on entering the select, and when it returns false the race was
    decided by that timer, at the deadline.  While the race is open the
    clock is before the deadline and nothing has been delivered.  In every
    run in which the process has not been ended by a failing tick, the
    supervisor gets to its return by its own statements. *)
Theorem waitFor_returns_the_outcome_of_the_race :
  forall (w : World) (mip mport mapi sip : string) (st : Sys),
    reachable w mip mport mapi sip st ->
    (forall b, sup st = SReturned b ->
               exists deadline,
                 supTimer st = Some deadline
                 /\ (b = true <-> deliveredBefore deadline (history st))
                 /\ (b = false -> In (deadline, Decided TimedOut) (history st)))
    /\ (forall deadline, sup st = SParked deadline ->
                         supTimer st = Some deadline /\ now st < deadline
                         /\ count isDelivered (history st) = 0%nat)
    /\ (sup st = SSelect -> proc st = Running ->
        exists st', step w mip mport mapi sip StepSup st = Some st'
                    /\ supTimer st' = Some (now st + 90 * Second))
    /\ (proc st = Running ->
        exists b st', exec w mip mport mapi sip (supRemaining st) st = Some st'
                      /\ sup st' = SReturned b /\ proc st' = Running).
Proof.
  intros w mip mport mapi sip st Hr.
  pose proof (Inv_reachable w mip mport mapi sip st Hr) as HI.
  split; [|split; [|split]].
  - intros b Hs. destruct HI as [_ _ _ _ Hph _ _]. unfold phase_ok in Hph.
    rewrite Hs in Hph. destruct Hph as (dl & Htm & Hv & _).
    exists dl. split; [exact Htm|]. exact (verdict_iff _ _ _ _ Hv).
  - intros dl Hs. destruct HI as [_ _ _ _ Hph _ _]. unfold phase_ok in Hph.
    rewrite Hs in Hph. destruct Hph as (Htm & Hlt & _ & _ & _ & _ & _ & Hz). auto.
  - intros Hs Hrun. pose proof (sup_moves w mip mport mapi sip st HI Hrun) as H.
    rewrite Hs in H. destruct H as (st' & H1 & _ & _ & Htm & _). eauto.
  - intro Hrun. exact (sup_finishes w mip mport mapi sip st HI Hrun).
Qed.


Lemma waitFor_returns_true_witness :
  exists deadline,
    supTimer Examples.successState = Some deadline
    /\ (true = true <-> deliveredBefore deadline (history Examples.successState))
    /\ (true = false ->
        In (deadline, Decided TimedOut) (history Examples.successState)).
Proof.
  refine (proj1 (waitFor_returns_the_outcome_of_the_race
                   Examples.followerThenLeader Examples.mip Examples.mport
                   Examples.mapi Examples.target Examples.successState _)
            true _).
  - exists Examples.successRun. vm_compute. reflexivity.
  - vm_compute. reflexivity.
Defined.

(** ** The stop signal *)

Lemma count_signalled_le_1 (w : World) (mip mport mapi sip : string) (st : Sys) :
  Inv st -> (count isSignalled (history st) <= 1)%nat.
Proof.
  intros [_ _ _ _ Hph _ _]. unfold phase_ok in Hph.
  destruct (sup st).
  - destruct Hph as (_ & Hh & _). rewrite Hh. unfold count. simpl. lia.
  - destruct Hph as (_ & _ & _ & Hz & _). lia.
  - destruct Hph as (_ & _ & _ & _ & Hz & _). lia.
  - destruct Hph as (dl & _ & _ & _ & _ & _ & Hz & _). lia.
  - destruct Hph as (dl & _ & _ & _ & _ & Hz & _). lia.
  - destruct Hph as (dl & _ & _ & _ & _ & _ & _ & Hz & _). lia.
  - destruct Hph as (dl & _ & _ & _ & _ & (? & ? & ? & ? & ? & _ & _ & Hz & _)). lia.
Qed.

(** A loop blocked in the send of line 146 on a full result channel that
    nobody reads any more stays there whatever happens next. *)
Lemma blocked_send_forever (w : World) (mip mport mapi sip : string)
    (schedule : list Action) :
  forall st st' b,
    exec w mip mport mapi sip schedule st = Some st' ->
    loop st = LSend -> sup st = SReturned b ->
    closed (stateChan st) = false ->
    buf (stateChan st) = [true] -> cap (stateChan st) = 1%nat ->
    loop st' = LSend /\ closed (stateChan st') = false.
Proof.
  induction schedule as [|a rest IH]; intros st st' b H Hl Hs Hcl Hbuf Hcap;
    simpl in H.
  - inversion H; subst. auto.
  - destruct (step w mip mport mapi sip a st) as [st1|] eqn:Hstep; [|discriminate].
    assert (Hkeep : loop st1 = LSend /\ sup st1 = SReturned b
                    /\ stateChan st1 = stateChan st).
    { destruct st as [nw pr nt sc dc tm lp sp h]. simpl in *. subst lp sp.
      destruct sc as [bf cp cl]. simpl in *. subst bf cp cl.
      unfold step in Hstep. cbn [proc] in Hstep.
      destruct pr; try discriminate.
      destruct a as [d| | |]; [|discriminate..].
      unfold advance in Hstep. destruct (d <=? 0)%Z; [discriminate|].
      cbn in Hstep. inversion Hstep; subst. cbn. auto. }
    destruct Hkeep as (Hl1 & Hs1 & Hc1).
    apply (IH st1 st' b H Hl1 Hs1); rewrite Hc1; assumption.
Qed.

(** C10, as stated, fails in its last clause: the loop does not always
    receive the stop signal.  In the first run the supervisor has sent the
    signal and returned when the answer of the loop's pending request
    comes in and does not decode: line 111 ends the process, the signal
    untaken.  In the second run the loop is blocked in the send of line 146
    (see [blockedSendRun]) when the signal is sent, and stays there
    whatever happens next. *)
Lemma stop_signal_is_not_always_received :
  match Examples.runFrom Examples.garbledAtOnce Examples.exitAfterSignalRun with
  | Some st =>
      sup st = SReturned false
      /\ count isSignalled (history st) = 1%nat
      /\ proc st = ExitStatus 1
      /\ stopping (loop st) = false
      /\ forall a, step Examples.garbledAtOnce Examples.mip Examples.mport
                     Examples.mapi Examples.target a st = None
  | None => False
  end
  /\ (Examples.runFrom Examples.leaderAtOnce Examples.leakRun = Some Examples.leakState
      /\ sup Examples.leakState = SReturned false
      /\ count isSignalled (history Examples.leakState) = 1%nat
      /\ proc Examples.leakState = Running
      /\ forall schedule st',
           exec Examples.leaderAtOnce Examples.mip Examples.mport Examples.mapi
             Examples.target schedule Examples.leakState = Some st' ->
           loop st' = LSend /\ closed (stateChan st') = false).
Proof.
  split; [vm_compute; repeat split|].
  split; [vm_compute; reflexivity|].
  split; [vm_compute; reflexivity|].
  split; [vm_compute; reflexivity|].
  split; [vm_compute; reflexivity|].
  intros schedule st' H.
  apply (blocked_send_forever _ _ _ _ _ schedule Examples.leakState st' false H);
    vm_compute; reflexivity.
Qed.

(** C10, amended.  In every run, once the race is decided the supervisor's next
    three statements can always run and are: the Printf of the case taken,
    one send on the cancellation channel, which neither blocks nor panics
    because the channel is empty and open at that point, and its close;
    this is so whichever case was taken, the success case too.  A run
    holds at most one send on that channel, and when the supervisor has
    returned exactly one send and one close are on record, in this order.
    Once the signal is sent the loop is never blocked in its select: it
    has taken the signal, or the signal is ready for its next select
    (which a loop that has died or is blocked in its send does not
    reach). *)
Theorem supervisor_sends_one_stop_signal_then_closes :
  forall (w : World) (mip mport mapi sip : string) (st : Sys),
    reachable w mip mport mapi sip st ->
    (forall c, sup st = SCase c -> proc st = Running ->
               exists st1 st2 st3,
                 step w mip mport mapi sip StepSup st = Some st1
                 /\ sup st1 = SSignal (isRegistered_of c)
                 /\ doneChan st1 = make 1
                 /\ step w mip mport mapi sip StepSup st1 = Some st2
                 /\ sup st2 = SClose (isRegistered_of c)
                 /\ In (now st1, Signalled) (history st2)
                 /\ step w mip mport mapi sip StepSup st2 = Some st3
                 /\ sup st3 = SReturned (isRegistered_of c)
                 /\ proc st3 = Running
                 /\ closed (doneChan st3) = true)
    /\ (count isSignalled (history st) <= 1)%nat
    /\ (forall b, sup st = SReturned b ->
                  signalThenClose (history st) /\ closed (doneChan st) = true)
    /\ ((1 <= count isSignalled (history st))%nat ->
        parked (loop st) = false
        /\ (stopping (loop st) = true \/ ready (doneChan st) = true)).
Proof.
  intros w mip mport mapi sip st Hr.
  pose proof (Inv_reachable w mip mport mapi sip st Hr) as HI.
  split; [|split; [|split]].
  - intros c Hs Hrun.
    pose proof (sup_moves w mip mport mapi sip st HI Hrun) as H.
    rewrite Hs in H. destruct H as (st1 & H1 & Hr1 & Hs1).
    pose proof (Inv_step w mip mport mapi sip _ _ _ HI H1) as HI1.
    pose proof (sup_moves w mip mport mapi sip st1 HI1 Hr1) as H.
    rewrite Hs1 in H. destruct H as (st2 & H2 & Hr2 & Hs2 & Hin & _).
    pose proof (Inv_step w mip mport mapi sip _ _ _ HI1 H2) as HI2.
    pose proof (sup_moves w mip mport mapi sip st2 HI2 Hr2) as H.
    rewrite Hs2 in H. destruct H as (st3 & H3 & Hr3 & Hs3 & Hcl & _).
    exists st1, st2, st3. repeat split; auto.
    destruct HI1 as [_ _ _ _ Hph _ _]. unfold phase_ok in Hph.
    rewrite Hs1 in Hph. destruct Hph as (dl & _ & _ & Hd & _). exact Hd.
  - exact (count_signalled_le_1 w mip mport mapi sip st HI).
  - intros b Hs. destruct HI as [_ _ _ _ Hph _ _]. unfold phase_ok in Hph.
    rewrite Hs in Hph. destruct Hph as (dl & _ & _ & Hcl & _ & Hstc). auto.
  - exact (signalled_loop st HI).
Qed.

Lemma supervisor_stop_signal_witness :
  signalThenClose (history Examples.successState)
  /\ closed (doneChan Examples.successState) = true.
Proof.
  refine (proj1 (proj2 (proj2 (supervisor_sends_one_stop_signal_then_closes
                   Examples.followerThenLeader Examples.mip Examples.mport
                   Examples.mapi Examples.target Examples.successState _)))
            true _).
  - exists Examples.successRun. vm_compute. reflexivity.
  - vm_compute. reflexivity.
Defined.

(** ** Errors of a tick *)


Lemma leaderAtOnce_errorFree : errorFree Examples.leaderAtOnce.
Proof.
  split; [reflexivity|]. intros n req.
  exists "200 OK", Examples.leaderView. split; [|discriminate].
  destruct n; reflexivity.
Qed.

(** ** After a match *)

(** C5, as stated, fails.  In the first run the first tick finds the match
    and delivers it at time 0; the supervisor takes it but has not sent the
    stop signal 15 seconds later; the loop's timer fires and the loop
    queries again, with the output channel still open.  In the second run
    the match of the first tick lies in the channel's buffer (the
    supervisor had timed out) when the next tick finds the match again: the
    send of line 146 blocks, and stays blocked after the supervisor has
    sent the signal and returned, so the output is never closed. *)
Lemma match_does_not_stop_the_loop :
  match Examples.runFrom Examples.leaderAtOnce Examples.idleSupervisorRun with
  | Some st =>
      history st
      = [(15 * Second, Issued (post "http://10.0.0.5:5050//state"));
         (15 * Second, TickStarted);
         (15 * Second, LoopWoke false);
         (0, Decided (GotState true));
         (0, Delivered true);
         (0, Issued (post "http://10.0.0.5:5050//state"));
         (0, TickStarted)]
      /\ closed (stateChan st) = false
      /\ proc st = Running
  | None => False
  end
  /\ match Examples.runFrom Examples.leaderAtOnce Examples.blockedSendRun with
     | Some st =>
         loop st = LSend
         /\ buf (stateChan st) = [true]
         /\ proc st = Running
         /\ step Examples.leaderAtOnce Examples.mip Examples.mport Examples.mapi
              Examples.target StepLoop st = None
         /\ match exec Examples.leaderAtOnce Examples.mip Examples.mport
                    Examples.mapi Examples.target [StepSup; StepSup; StepSup] st with
            | Some st' =>
                sup st' = SReturned false
                /\ step Examples.leaderAtOnce Examples.mip Examples.mport
                     Examples.mapi Examples.target StepLoop st' = None
                /\ closed (stateChan st') = false
            | None => False
            end
     | None => False
     end.
Proof. split; vm_compute; repeat split. Qed.

(** C5, amended.  When a tick finds a match the loop sends true on the
    result channel; the first such send of a run never blocks, the channel
    being empty then.  It then comes to the same select as after any other
    tick, without a further query in between: if the stop signal is ready
    there it goes on to close the output channel and return, issuing no
    further query; if not it waits, and when its 15-second timer fires
    first it queries again.  The loop closes the output and stops only
    after the supervisor has sent the stop signal. *)
Theorem loop_after_match_stops_only_on_signal :
  forall (w : World) (mip mport mapi sip : string) (st : Sys),
    reachable w mip mport mapi sip st ->
    (proc st = Running -> loop st = LSend ->
     count isDelivered (history st) = 0%nat ->
     exists st', step w mip mport mapi sip StepLoop st = Some st'
                 /\ proc st' = Running /\ loop st' = LSelect
                 /\ sent (net st') = sent (net st)
                 /\ In (now st, Delivered true) (history st'))
    /\ (proc st = Running -> loop st = LSelect ->
        exists st', step w mip mport mapi sip StepLoop st = Some st'
                    /\ proc st' = Running
                    /\ sent (net st') = sent (net st)
                    /\ loop st' = if ready (doneChan st) then LDone
                                  else LParked (now st + 15 * Second))
    /\ (proc st = Running -> forall deadline, loop st = LParked deadline ->
        ready (doneChan st) = false /\ now st < deadline
        /\ exists st', step w mip mport mapi sip (Advance (deadline - now st)) st
                         = Some st'
                       /\ proc st' = Running /\ loop st' = LCall)
    /\ (proc st = Running -> loop st = LDone ->
        exists st' st'',
          step w mip mport mapi sip StepLoop st = Some st'
          /\ closed (stateChan st') = true
          /\ step w mip mport mapi sip StepLoop st' = Some st''
          /\ loop st'' = LReturned
          /\ sent (net st'') = sent (net st))
    /\ (stopping (loop st) = true \/ closed (stateChan st) = true ->
        count isSignalled (history st) = 1%nat).
Proof.
  intros w mip mport mapi sip st Hr.
  pose proof (Inv_reachable w mip mport mapi sip st Hr) as HI.
  split; [|split; [|split; [|split]]].
  - intros Hrun Hl Hz.
    pose proof (loop_moves w mip mport mapi sip st HI Hrun) as H.
    rewrite Hl in H. apply H.
    apply (pristine_reachable w mip mport mapi sip st Hr). exact Hz.
  - intros Hrun Hl.
    pose proof (loop_moves w mip mport mapi sip st HI Hrun) as H.
    rewrite Hl in H. exact H.
  - intros Hrun dl Hl.
    pose proof (loop_moves w mip mport mapi sip st HI Hrun) as H.
    rewrite Hl in H. destruct H as (Hrd & Hlt & st' & H1 & Hr1 & Hl1 & _). eauto 8.
  - intros Hrun Hl.
    pose proof (loop_moves w mip mport mapi sip st HI Hrun) as H.
    rewrite Hl in H. destruct H as (st' & H1 & Hr1 & Hl1 & Hcl & Hsent & _).
    pose proof (Inv_step w mip mport mapi sip _ _ _ HI H1) as HI1.
    pose proof (loop_moves w mip mport mapi sip st' HI1 Hr1) as H.
    rewrite Hl1 in H. destruct H as (st'' & H2 & _ & Hl2 & Hsent2).
    exists st', st''. repeat split; auto. congruence.
  - intro Hor.
    assert (Hstop : stopping (loop st) = true).
    { destruct Hor as [H|H]; [exact H|].
      destruct HI as [_ _ _ _ _ Hl _]. unfold loop_ok in Hl.
      destruct (loop st); simpl in Hl; try reflexivity; try congruence;
        destruct Hl; congruence. }
    destruct HI as [_ _ _ _ Hph Hl _]. unfold phase_ok, loop_ok in *.
    destruct (sup st).
    + destruct Hph as (Hn & _). rewrite Hn in Hstop. discriminate.
    + destruct Hph as (_ & _ & Hs & _). congruence.
    + destruct Hph as (_ & _ & _ & Hs & _). congruence.
    + destruct Hph as (dl & _ & _ & _ & _ & Hs & _). congruence.
    + destruct Hph as (dl & _ & _ & _ & Hs & _). congruence.
    + destruct Hph as (dl & _ & _ & _ & _ & _ & _ & Hz & _). exact Hz.
    + destruct Hph as (dl & _ & _ & _ & _ & (? & ? & ? & ? & ? & _ & _ & Hz & _)).
      exact Hz.
Qed.

Lemma loop_after_match_witness :
  count isSignalled (history Examples.successState) = 1%nat.
Proof.
  refine (proj2 (proj2 (proj2 (proj2 (loop_after_match_stops_only_on_signal
                   Examples.followerThenLeader Examples.mip Examples.mport
                   Examples.mapi Examples.target Examples.successState _)))) _).
  - exists Examples.successRun. vm_compute. reflexivity.
  - left. vm_compute. reflexivity.
Defined.

(** ** After the stop signal *)

(** C6, as stated, fails.  The first answer, from a follower, takes 110
    seconds; the supervisor times out and sends the stop signal at 90
    seconds, while that request is pending.  After the signal the loop
    issues one more query, to the leader, and it closes the output channel
    at 110 seconds, 20 seconds after the signal. *)
Lemma stop_signal_during_a_tick_is_seen_late :
  match Examples.runFrom Examples.followerThenLeader Examples.slowFirstQueryRun with
  | Some st =>
      In (90 * Second, Signalled) (history st)
      /\ sinceSignal (history st) = Some Examples.sinceSlowSignal
      /\ 15 * Second < 110 * Second - 90 * Second
  | None => False
  end.
Proof. vm_compute. repeat split. right. right. right. right. left. reflexivity. Qed.

(** The send of line 186: a loop blocked in its select is released at that
    instant; any other loop is left where it is. *)
Lemma signal_step (w : World) (mip mport mapi sip : string) (st : Sys) (b : bool) :
  Inv st -> proc st = Running -> sup st = SSignal b ->
  exists st', step w mip mport mapi sip StepSup st = Some st'
              /\ In (now st, Signalled) (history st')
              /\ match loop st with
                 | LParked _ =>
                     loop st' = LDone /\ In (now st, LoopWoke true) (history st')
                 | l => loop st' = l
                 end.
Proof.
  intros [_ _ _ _ Hph _ _] Hrun Hs.
  unfold step, waitForMesosSlaveRegistration. rewrite Hrun, Hs.
  unfold phase_ok in Hph. rewrite Hs in Hph.
  destruct Hph as (dl & _ & _ & Hd & _). rewrite Hd.
  destruct st as [nw pr nt sc dc tm lp sp h]. simpl in *.
  destruct lp; simpl; eexists; repeat split; simpl; auto.
Qed.

(** * Further properties *)

(** ** Further properties of the sequential code *)

(** X1.  What [queryMesosState] hands back: a snapshot and a nil error when the
    answer decodes, a nil snapshot and the decoder's error when it does not;
    never both, never neither.  It panics exactly when the request cannot
    be built or the transport fails, and it never exits the process. *)
Theorem queryMesosState_result_contract :
  forall (w : World) (url : string) (n : Net),
    match fst (run w (queryMesosState url) n) with
    | Returned (Some s, None) =>
        rejectsURL w url = false
        /\ exists status,
             roundTrip w (length (sent n)) (post url)
             = inl {| Status := status; Body := JSON s |}
    | Returned (None, Some err) =>
        err = DecodeError
        /\ rejectsURL w url = false
        /\ exists status,
             roundTrip w (length (sent n)) (post url)
             = inl {| Status := status; Body := NotJSON |}
    | Returned (Some _, Some _) | Returned (None, None) => False
    | Panicked x =>
        (rejectsURL w url = true /\ x = PanicError NewRequestError)
        \/ (rejectsURL w url = false
            /\ exists err, roundTrip w (length (sent n)) (post url) = inr err
                           /\ x = PanicError err)
    | Exited _ => False
    end.
Proof.
  intros w url n. rewrite run_queryMesosState.
  destruct (rejectsURL w url); cbn [fst]; [left; auto|].
  destruct (roundTrip w (length (sent n)) (post url)) as [[status [|s]]|err];
    cbn [fst Body Status]; eauto 6.
Qed.

(** X2.  A transport failure on either query ends [isSlaveRegistered] with
    [panic(err)]: on the first query after one request, on the redirect
    query after two. *)
Theorem isSlaveRegistered_panics_on_transport_failure :
  forall (w : World) (hp api ip : string) (n : Net) (err : error),
    rejectsURL w (stateURL hp api) = false ->
    (roundTrip w (length (sent n)) (post (stateURL hp api)) = inr err ->
     run w (isSlaveRegistered hp api ip) n
     = (Panicked (PanicError err),
        send (post (stateURL hp api)) (say (querying (stateURL hp api)) n)))
    /\ (forall status s newHostPort,
          roundTrip w (length (sent n)) (post (stateURL hp api))
            = inl {| Status := status; Body := JSON s |} ->
          isFollowerView s = true ->
          nth_error (Split (Leader s) at_sign) 1 = Some newHostPort ->
          rejectsURL w (stateURL newHostPort api) = false ->
          roundTrip w (S (length (sent n))) (post (stateURL newHostPort api))
            = inr err ->
          run w (isSlaveRegistered hp api ip) n
          = (Panicked (PanicError err),
             send (post (stateURL newHostPort api))
               (say (querying (stateURL newHostPort api))
                  (answered (stateURL hp api) status n)))).
Proof.
  intros w hp api ip n err Hurl. split.
  - intro Hreply. unfold isSlaveRegistered.
    rewrite run_bind, run_queryMesosState, Hurl, Hreply. reflexivity.
  - intros status s hp' Hreply Hf Hsplit Hurl2 Hreply2.
    rewrite (run_isSlaveRegistered_decoded w hp api ip n Hurl Hreply). cbv zeta.
    rewrite Hf, Hsplit, run_askLeader, run_queryMesosState, Hurl2.
    replace (length (sent (answered (stateURL hp api) status n)))
      with (S (length (sent n)))
      by (unfold answered; cbn [say send sent]; rewrite length_app; simpl; lia).
    rewrite Hreply2. reflexivity.
Qed.

Lemma run_askLeader_sent (w : World) (hp api ip : string) (n : Net) :
  sent (snd (run w (askLeader hp api ip) n)) = sent n
  \/ sent (snd (run w (askLeader hp api ip) n))
     = (sent n ++ [post (stateURL hp api)])%list.
Proof.
  rewrite run_askLeader, run_queryMesosState.
  destruct (rejectsURL w (stateURL hp api)); [left; reflexivity|]. right.
  destruct (roundTrip w (length (sent n)) (post (stateURL hp api)))
    as [[status [|s]]|err]; reflexivity.
Qed.

(** X3.  Whatever it is answered, one call of [isSlaveRegistered] calls
    [client.Do] at most twice: it adds to the requests handed to
    [client.Do] either nothing, or the query for its own endpoint, or that
    query followed by one query with the same path for another host.  (How
    many requests the client puts on the wire inside one call of
    [client.Do] is not stated.) *)
Theorem isSlaveRegistered_calls_client_do_at_most_twice :
  forall (w : World) (hp api ip : string) (n : Net),
    let after := sent (snd (run w (isSlaveRegistered hp api ip) n)) in
    after = sent n
    \/ after = (sent n ++ [post (stateURL hp api)])%list
    \/ exists newHostPort,
         after = (sent n ++ [post (stateURL hp api);
                             post (stateURL newHostPort api)])%list.
Proof.
  intros w hp api ip n. cbv zeta.
  destruct (rejectsURL w (stateURL hp api)) eqn:Hurl.
  { left. unfold isSlaveRegistered.
    rewrite run_bind, run_queryMesosState, Hurl. reflexivity. }
  destruct (roundTrip w (length (sent n)) (post (stateURL hp api)))
    as [[status [|s]]|err] eqn:Hreply.
  - right; left. unfold isSlaveRegistered.
    rewrite run_bind, run_queryMesosState, Hurl, Hreply. reflexivity.
  - rewrite (run_isSlaveRegistered_decoded w hp api ip n Hurl Hreply). cbv zeta.
    destruct (isFollowerView s); [|right; left; reflexivity].
    destruct (nth_error (Split (Leader s) at_sign) 1) as [hp'|];
      [|right; left; reflexivity].
    destruct (run_askLeader_sent w hp' api ip (answered (stateURL hp api) status n))
      as [H|H]; rewrite H.
    + right; left. reflexivity.
    + right; right. exists hp'. unfold answered. cbn [say send sent].
      rewrite <- app_assoc. reflexivity.
  - right; left. unfold isSlaveRegistered.
    rewrite run_bind, run_queryMesosState, Hurl, Hreply. reflexivity.
Qed.

Lemma Split_head (s : string) :
  nth_error (Split s at_sign) 0 = Some (upToAt s).
Proof.
  induction s as [|c s IH]; simpl; [reflexivity|].
  destruct (Ascii.eqb c at_sign); [reflexivity|].
  destruct (Split s at_sign) as [|p ps]; simpl in *; [discriminate|].
  inversion IH; subst. reflexivity.
Qed.

Lemma upToAt_without_separator (s : string) : hasAt s = false -> upToAt s = s.
Proof.
  induction s as [|c s IH]; simpl; [reflexivity|].
  intro H. apply orb_false_iff in H as [Hc Hs]. rewrite Hc, (IH Hs). reflexivity.
Qed.

Lemma Split_after_first_separator (scheme rest : string) :
  hasAt scheme = false ->
  nth_error (Split (scheme ++ String at_sign rest) at_sign) 1
  = Some (upToAt rest).
Proof.
  induction scheme as [|c scheme IH]; simpl.
  - intros _. apply Split_head.
  - intro H. apply orb_false_iff in H as [Hc Hs]. rewrite Hc.
    specialize (IH Hs).
    destruct (Split (scheme ++ String at_sign rest) at_sign) as [|p ps];
      [discriminate|]. exact IH.
Qed.

(** X4.  The redirect of lines 119-122 goes to the text between the first and
    the second '@' of the leader string: for a leader "scheme@host:port"
    that is host:port, and for a leader with a further '@' whatever follows
    it is dropped.  The path is the one of the first query. *)
Theorem isSlaveRegistered_redirect_target :
  forall (w : World) (hp api ip status scheme rest : string) (s : MesosState)
         (n : Net),
    rejectsURL w (stateURL hp api) = false ->
    roundTrip w (length (sent n)) (post (stateURL hp api))
      = inl {| Status := status; Body := JSON s |} ->
    isFollowerView s = true ->
    Leader s = scheme ++ String at_sign rest ->
    hasAt scheme = false ->
    run w (isSlaveRegistered hp api ip) n
    = run w (askLeader (upToAt rest) api ip) (answered (stateURL hp api) status n)
    /\ (hasAt rest = false -> upToAt rest = rest).
Proof.
  intros w hp api ip status scheme rest s n Hurl Hreply Hf Hleader Hscheme.
  split; [|apply upToAt_without_separator].
  rewrite (run_isSlaveRegistered_decoded w hp api ip n Hurl Hreply). cbv zeta.
  rewrite Hf, Hleader, (Split_after_first_separator scheme rest Hscheme).
  reflexivity.
Qed.

Lemma isSlaveRegistered_redirect_target_witness :
  run Examples.followerThenLeader
      (isSlaveRegistered "10.0.0.5:5050" "/state" Examples.target) quiet
  = run Examples.followerThenLeader
      (askLeader (upToAt "10.0.0.2:5050") "/state" Examples.target)
      (answered (stateURL "10.0.0.5:5050" "/state") "200 OK" quiet)
  /\ (hasAt "10.0.0.2:5050" = false -> upToAt "10.0.0.2:5050" = "10.0.0.2:5050").
Proof.
  apply (isSlaveRegistered_redirect_target
           Examples.followerThenLeader "10.0.0.5:5050" "/state" Examples.target
           "200 OK" "master" "10.0.0.2:5050" Examples.followerView quiet);
    reflexivity.
Defined.

(** ** Further properties of the worker scan *)

(** X6.  The scan looks at nothing but the privateip attribute: two worker
    lists with the same privateip values, in the same order, give the same
    answer, whatever their active flags, pids, registration times and other
    attributes. *)
Theorem scanSlaves_depends_only_on_privateip :
  forall (slaves slaves' : list MesosSlave) (agentIP : string),
    privateIPs slaves = privateIPs slaves' ->
    scanSlaves slaves agentIP = scanSlaves slaves' agentIP.
Proof.
  induction slaves as [|s rest IH]; intros [|s' rest'] ip H; simpl in *;
    try discriminate; [reflexivity|].
  inversion H as [[Hip Hrest]]. rewrite Hip, (IH rest' ip Hrest). reflexivity.
Qed.

Lemma scanSlaves_privateip_witness :
  scanSlaves [Examples.agent Examples.target] Examples.target
  = scanSlaves
      [{| IsActive := false; MesosPid := EmptyString;
          Attributes := {| Host := EmptyString; InstanceType := EmptyString;
                           PublicIP := EmptyString; Rack := EmptyString;
                           PrivateIP := Examples.target |};
          RegisteredTime := 0%float |}]
      Examples.target.
Proof.
  apply scanSlaves_depends_only_on_privateip. reflexivity.
Defined.

Lemma scanSlaves_app (l1 l2 : list MesosSlave) (agentIP : string) :
  scanSlaves (l1 ++ l2) agentIP = scanSlaves l1 agentIP || scanSlaves l2 agentIP.
Proof.
  induction l1 as [|s l1 IH]; simpl; [reflexivity|].
  destruct (String.eqb (PrivateIP (Attributes s)) agentIP); [reflexivity|exact IH].
Qed.

(** X7.  The answer of the scan does not depend on the order of the worker
    list, and the scan of two lists put together is the disjunction of
    their scans. *)
Theorem scanSlaves_order_and_concatenation :
  forall (l1 l2 : list MesosSlave) (agentIP : string),
    scanSlaves (l1 ++ l2) agentIP
    = scanSlaves l1 agentIP || scanSlaves l2 agentIP
    /\ (Permutation l1 l2 -> scanSlaves l1 agentIP = scanSlaves l2 agentIP).
Proof.
  intros l1 l2 ip. split; [apply scanSlaves_app|].
  intro HP. induction HP as [|x l l' _ IH|x y l|l l' l'' _ IH1 _ IH2]; simpl.
  - reflexivity.
  - rewrite IH. reflexivity.
  - destruct (String.eqb (PrivateIP (Attributes y)) ip),
             (String.eqb (PrivateIP (Attributes x)) ip); reflexivity.
  - congruence.
Qed.

Lemma scanSlaves_order_witness :
  scanSlaves [Examples.agent "172.31.40.1"; Examples.agent Examples.target]
    Examples.target
  = scanSlaves [Examples.agent Examples.target; Examples.agent "172.31.40.1"]
      Examples.target.
Proof.
  apply (proj2 (scanSlaves_order_and_concatenation
                  [Examples.agent "172.31.40.1"; Examples.agent Examples.target]
                  [Examples.agent Examples.target; Examples.agent "172.31.40.1"]
                  Examples.target)).
  apply perm_swap.
Defined.

Lemma isSlaveRegistered_transport_failure_witness :
  run Examples.unreachable
      (isSlaveRegistered "10.0.0.5:5050" "/state" Examples.target) quiet
  = (Panicked (PanicError TransportError),
     send (post (stateURL "10.0.0.5:5050" "/state"))
       (say (querying (stateURL "10.0.0.5:5050" "/state")) quiet)).
Proof.
  refine (proj1 (isSlaveRegistered_panics_on_transport_failure
                   Examples.unreachable "10.0.0.5:5050" "/state"
                   Examples.target quiet TransportError _) _);
    reflexivity.
Defined.

(** ** What a true result rests on *)

Section Honesty.

Variable w : World.
Variables mip mport mapi sip : string.

Lemma listed_app ip lo lo' reqs more :
  (lo' <= lo)%nat -> listed w ip lo reqs -> listed w ip lo' (reqs ++ more).
Proof.
  intros Hlo (i & req & resp & s & Hi & Hn & Hr & Hd & Hs).
  exists i, req, resp, s. repeat split; auto; [lia|].
  rewrite nth_error_app1; [exact Hn|].
  apply nth_error_Some. rewrite Hn. discriminate.
Qed.

Lemma honest_run ip lo (p : Prog bool) :
  forall n n',
    honest w ip lo p (sent n) ->
    run w p n = (Returned true, n') -> listed w ip lo (sent n').
Proof.
  induction p as [b|x|c|o k IH|m u b k IH|req k IH]; simpl; intros n n' Hh Hr.
  - inversion Hr; subst. auto.
  - discriminate.
  - discriminate.
  - apply (IH (say o n)); assumption.
  - eapply IH; eassumption.
  - eapply IH; [|eassumption]. exact Hh.
Qed.

Lemma honest_isSlaveRegistered (hp api ip : string) (reqs : list Request) :
  honest w ip (length reqs) (isSlaveRegistered hp api ip) reqs.
Proof.
  unfold isSlaveRegistered, queryMesosState, Printf, Println.
  cbn [bind honest]. unfold newRequest.
  destruct (rejectsURL w (stateURL hp api)); cbn [bind honest]; [exact I|].
  destruct (roundTrip w (length reqs) _) as [resp|err] eqn:Hr1;
    cbn [bind honest]; [|exact I].
  destruct (Decode (Body resp)) as [s|err] eqn:Hd1;
    cbn [bind honest deref]; [|exact I].
  destruct (isFollowerView s); cbn [bind honest deref].
  - unfold index. destruct (nth_error (Split (Leader s) at_sign) 1) as [hp'|];
      cbn [bind honest]; [|exact I]. unfold newRequest.
    destruct (rejectsURL w (stateURL hp' api)); cbn [bind honest]; [exact I|].
    destruct (roundTrip w (length (reqs ++ [_])) _) as [resp2|err] eqn:Hr2;
      cbn [bind honest]; [|exact I].
    destruct (Decode (Body resp2)) as [s2|err] eqn:Hd2;
      cbn [bind honest deref]; [|exact I].
    intro Hs. eexists _, _, resp2, s2.
    split; [|split; [|split; [exact Hr2|split; [exact Hd2|exact Hs]]]].
    + rewrite length_app. lia.
    + rewrite nth_error_app2 by lia. rewrite Nat.sub_diag. reflexivity.
  - intro Hs. eexists _, _, resp, s.
    split; [|split; [|split; [exact Hr1|split; [exact Hd1|exact Hs]]]].
    + lia.
    + rewrite nth_error_app2 by lia. rewrite Nat.sub_diag. reflexivity.
Qed.

Lemma honest_weaken ip lo lo' (p : Prog bool) :
  (lo' <= lo)%nat ->
  forall reqs, honest w ip lo p reqs -> honest w ip lo' p reqs.
Proof.
  intro Hlo. induction p as [b|x|c|o k IH|m u b k IH|req k IH]; simpl;
    intros reqs Hh; auto.
  intro Hb. destruct (Hh Hb) as (i & req & resp & s & Hi & Hrest).
  exists i, req, resp, s. split; [lia | exact Hrest].
Qed.

Lemma honest_step a st st' :
  honest_ok w sip st -> step w mip mport mapi sip a st = Some st' ->
  honest_ok w sip st'.
Proof.
  unfold honest_ok. intros (HL & HB & HS) H.
  destruct st as [nw pr nt sc dc tm lp sp h]. sys_simpl.
  destruct a; step_cases H; cbn [honest say send sent In] in *;
    try discriminate.
  all: repeat split; auto.
  all: try (intros []).
  all: try (apply (honest_weaken _ (length (sent nt)) 0); [lia|];
            apply honest_isSlaveRegistered).
  all: try (intro; apply (listed_app _ 0 0); [lia|]; tauto).
  all: try (rewrite Heql; intros []).
  all: try (destruct b; auto).
  destruct sp as [| |dl|[[|]|]|[|]|[|]|[|]]; try exact I;
    (apply (listed_app _ 0 0); [lia|]; exact HS).
Qed.

Lemma honest_reachable st :
  reachable w mip mport mapi sip st -> honest_ok w sip st.
Proof.
  apply reachable_ind.
  - repeat split. intros [].
  - intros a s s' _. apply honest_step.
Qed.

(** X5.  A call of [isSlaveRegistered] returns true only if one of the requests it
    sent itself was answered by a document that decodes to a snapshot with
    a worker of the wanted private IP. *)
Theorem isSlaveRegistered_true_is_backed_by_an_answer :
  forall (hp api ip : string) (n n' : Net),
    run w (isSlaveRegistered hp api ip) n = (Returned true, n') ->
    listed w ip (length (sent n)) (sent n').
Proof.
  intros hp api ip n n' Hr.
  apply (honest_run ip _ (isSlaveRegistered hp api ip) n n');
    [apply honest_isSlaveRegistered | exact Hr].
Qed.

(** X15.  [waitForMesosSlaveRegistration] returns true only if some request of the
    run was answered by a snapshot that lists the agent: a true result is
    never made up by the channels, the timer or the scheduling. *)
Theorem true_is_returned_only_for_a_listed_agent :
  forall st,
    reachable w mip mport mapi sip st ->
    sup st = SReturned true ->
    listed w sip 0 (sent (net st)).
Proof.
  intros st Hr Hs. destruct (honest_reachable st Hr) as (_ & _ & H).
  rewrite Hs in H. exact H.
Qed.


End Honesty.

Lemma isSlaveRegistered_true_witness :
  listed Examples.followerThenLeader Examples.target (length (sent quiet))
    (sent (snd (run Examples.followerThenLeader
                  (isSlaveRegistered "10.0.0.5:5050" "/state" Examples.target)
                  quiet))).
Proof.
  refine (isSlaveRegistered_true_is_backed_by_an_answer
            Examples.followerThenLeader "10.0.0.5:5050" "/state"
            Examples.target quiet _ _).
  vm_compute. reflexivity.
Defined.

Lemma true_is_returned_witness :
  listed Examples.followerThenLeader Examples.target 0
    (sent (net Examples.successState)).
Proof.
  refine (true_is_returned_only_for_a_listed_agent
            Examples.followerThenLeader Examples.mip Examples.mport
            Examples.mapi Examples.target Examples.successState _ _).
  - exists Examples.successRun. vm_compute. reflexivity.
  - vm_compute. reflexivity.
Defined.

(** ** A call inside the polling goroutine *)

Section Polls.

Variable w : World.
Variables mip mport mapi sip : string.

(** Left to run to its end, the rest of a call has the outcome and the
    effects of the sequential program. *)
Lemma tick_runs (p : Prog bool) :
  forall st,
    proc st = Running -> loop st = LRun p ->
    exists st',
      exec w mip mport mapi sip (tickSchedule w p (length (sent (net st)))) st
      = Some st'
      /\ net st' = snd (run w p (net st))
      /\ afterCall (fst (run w p (net st))) st'
      /\ sameOutside st st'.
Proof.
  induction p as [b|x|c|o k IH|m u b k IH|req k IH];
    intros [nw pr nt sc dc tm lp sp h] Hp Hl; cbn in Hp, Hl; subst pr lp.
  - eexists. split; [reflexivity|]. cbn. destruct b; repeat split.
  - eexists. split; [reflexivity|]. cbn. repeat split.
  - eexists. split; [reflexivity|]. cbn. repeat split.
  - destruct (IH (Build_Sys nw Running (say o nt) sc dc tm (LRun k) sp h)
                eq_refl eq_refl) as (st' & He & Hn & Ha & Hs).
    exists st'. split; [exact He|]. split; [exact Hn|]. split; [exact Ha|exact Hs].
  - destruct (IH (newRequest w m u b)
                (Build_Sys nw Running nt sc dc tm
                   (LRun (k (newRequest w m u b))) sp h)
                eq_refl eq_refl) as (st' & He & Hn & Ha & Hs).
    exists st'. split; [exact He|]. split; [exact Hn|]. split; [exact Ha|exact Hs].
  - destruct (IH (roundTrip w (length (sent nt)) req)
                (Build_Sys nw Running (send req nt) sc dc tm
                   (LRun (k (roundTrip w (length (sent nt)) req))) sp
                   ((nw, Issued req) :: h))
                eq_refl eq_refl) as (st' & He & Hn & Ha & Hs).
    exists st'. cbn [net sent send] in He. rewrite length_app in He.
    cbn [length] in He. rewrite Nat.add_1_r in He.
    split; [exact He|]. split; [exact Hn|]. split; [exact Ha|exact Hs].
Qed.

End Polls.

Section Ends.

Variable w : World.
Variables mip mport mapi sip : string.






(** ** What a run can die of *)


End Ends.


Section ResultChannel.

Variable w : World.
Variables mip mport mapi sip : string.

Lemma channel_step a st st' :
  channel_ok st -> step w mip mport mapi sip a st = Some st' -> channel_ok st'.
Proof.
  unfold channel_ok. intros HC H.
  destruct st as [nw pr nt sc dc tm lp sp h]. sys_simpl.
  destruct a; step_cases H; auto; try discriminate;
    try (apply Forall_app; split; [|repeat constructor]);
    repeat match goal with Hq : buf _ = _ |- _ => rewrite Hq in * end;
    auto; inversion HC; subst; auto.
Qed.

Lemma channel_reachable st : reachable w mip mport mapi sip st -> channel_ok st.
Proof.
  apply reachable_ind; [constructor|]. intros a s s' _. apply channel_step.
Qed.

(** ** The result channel *)

(** X10.  In every run the result channel holds at most one pending value and
    only ever the value true; it is not closed as long as the supervisor
    has not taken a case of its select; and the value the supervisor
    receives on line 181 is true, never the zero value of a closed
    channel. *)
Theorem result_channel_carries_only_true :
  forall st,
    reachable w mip mport mapi sip st ->
    (buf (stateChan st) = [] \/ buf (stateChan st) = [true])
    /\ (forall v, sup st = SCase (GotState v) -> v = true)
    /\ (sup st = SSelect \/ (exists deadline, sup st = SParked deadline) ->
        closed (stateChan st) = false).
Proof.
  intros st Hr.
  pose proof (Inv_reachable w mip mport mapi sip st Hr) as HI.
  pose proof (channel_reachable st Hr) as HC. unfold channel_ok in HC.
  destruct HI as [_ _ _ Hb Hph Hl _]. unfold phase_ok, loop_ok in *.
  split; [|split].
  - destruct (buf (stateChan st)) as [|v [|v' rest]]; simpl in Hb; try lia; auto.
    inversion HC; subst. auto.
  - intros v Hs. rewrite Hs in Hph. destruct Hph as (dl & _ & _ & Hne & _).
    destruct v; [reflexivity | contradiction].
  - assert (Hopen : stopping (loop st) = false -> closed (stateChan st) = false).
    { destruct (loop st); simpl in *; try discriminate; auto; destruct Hl; auto. }
    intros [Hs|[dl Hs]]; rewrite Hs in Hph; apply Hopen.
    + destruct Hph as (_ & _ & H & _). exact H.
    + destruct Hph as (_ & _ & _ & H & _). exact H.
Qed.

Lemma timer_step a st st' :
  Inv st -> timer_ok st -> step w mip mport mapi sip a st = Some st' -> timer_ok st'.
Proof.
  unfold timer_ok. intros [Hc _ _ _ _ _ _] HT H.
  destruct st as [nw pr nt sc dc tm lp sp h]. sys_simpl.
  destruct a; step_cases H; auto; try discriminate;
    intros deadline Hd; inversion Hd; subst; unfold Second; lia.
Qed.

Lemma timer_reachable st : reachable w mip mport mapi sip st -> timer_ok st.
Proof.
  apply reachable_ind; [intros dl Hd; discriminate|].
  intros a s s' Hr. apply timer_step. apply (Inv_reachable w mip mport mapi sip). exact Hr.
Qed.

(** ** How long a negative answer takes *)

(** X11.  [waitForMesosSlaveRegistration] never gives up early: when it returns
    false at least 90 seconds have passed on the clock, and no match has
    been delivered before its deadline. *)
Theorem false_is_returned_only_after_90_seconds :
  forall st,
    reachable w mip mport mapi sip st ->
    sup st = SReturned false ->
    90 * Second <= now st
    /\ exists deadline,
         supTimer st = Some deadline /\ deadline <= now st
         /\ forall t v, In (t, Delivered v) (history st) -> deadline <= t.
Proof.
  intros st Hr Hs.
  pose proof (Inv_reachable w mip mport mapi sip st Hr) as HI.
  pose proof (timer_reachable st Hr) as HT.
  destruct HI as [_ _ _ _ Hph _ _]. unfold phase_ok in Hph. rewrite Hs in Hph.
  destruct Hph as (dl & Htm & [_ Hv] & _).
  destruct (Hv eq_refl) as (_ & Hle & Hall).
  specialize (HT dl Htm). split; [lia|]. exists dl. auto.
Qed.

End ResultChannel.

Lemma result_channel_witness :
  (buf (stateChan Examples.leakState) = []
   \/ buf (stateChan Examples.leakState) = [true])
  /\ (forall v, sup Examples.leakState = SCase (GotState v) -> v = true)
  /\ (sup Examples.leakState = SSelect
      \/ (exists deadline, sup Examples.leakState = SParked deadline) ->
      closed (stateChan Examples.leakState) = false).
Proof.
  refine (result_channel_carries_only_true
            Examples.leaderAtOnce Examples.mip Examples.mport Examples.mapi
            Examples.target Examples.leakState _).
  exists Examples.leakRun. vm_compute. reflexivity.
Defined.

Lemma false_is_returned_witness :
  90 * Second <= now Examples.timedOutState
  /\ exists deadline,
       supTimer Examples.timedOutState = Some deadline
       /\ deadline <= now Examples.timedOutState
       /\ forall t v, In (t, Delivered v) (history Examples.timedOutState) ->
                      deadline <= t.
Proof.
  refine (false_is_returned_only_after_90_seconds
            Examples.garbledAtOnce Examples.mip Examples.mport Examples.mapi
            Examples.target Examples.timedOutState _ _).
  - exists Examples.exitAfterSignalRun. vm_compute. reflexivity.
  - vm_compute. reflexivity.
Defined.

Section Polling.

Variable w : World.
Variables mip mport mapi sip : string.

Lemma tickTimes_cons (t : Z) (e : Event) (h : list (Z * Event)) :
  tickTimes ((t, e) :: h)
  = if isTickStarted e then t :: tickTimes h else tickTimes h.
Proof. unfold tickTimes. simpl. destruct (isTickStarted e); reflexivity. Qed.

Lemma tickTimes_stamps (h : list (Z * Event)) (nw : Z) :
  Forall (fun te => fst te <= nw) h -> Forall (fun t => t <= nw) (tickTimes h).
Proof.
  induction h as [|[t e] h IH]; intro H; [constructor|].
  inversion H; subst. rewrite tickTimes_cons.
  destruct (isTickStarted e); [constructor|]; auto.
Qed.

Lemma spaced_cons (t : Z) (times : list Z) :
  spaced times -> Forall (fun t0 => t0 + 15 * Second <= t) times ->
  spaced (t :: times).
Proof.
  intros Hs Hall. simpl. split; [|exact Hs].
  destruct times as [|t1 rest]; [exact I|]. inversion Hall; subst. assumption.
Qed.

Lemma spacing_step a st st' :
  Inv st -> spacing_ok st ->
  step w mip mport mapi sip a st = Some st' -> spacing_ok st'.
Proof.
  unfold spacing_ok. intros [Hc Hs _ _ Hph Hl _] [Hsp Hlp] H.
  pose proof (tickTimes_stamps _ _ Hs) as Hts.
  unfold phase_ok, loop_ok in *.
  destruct st as [nw pr nt sc dc tm lp sp h]. sys_simpl.
  destruct a; step_cases H; rewrite ?tickTimes_cons; cbn [isTickStarted];
    try discriminate; try (split; [assumption|]); auto.
  all: try (split; [apply spaced_cons; assumption | exact I]).
  all: repeat match goal with
              | Hq : (_ <=? _) = true |- _ => apply Z.leb_le in Hq
              | Hq : (_ <=? _) = false |- _ => apply Z.leb_gt in Hq
              end.
  all: try match goal with
           | Hq : Forall _ (tickTimes ?h) |- Forall _ (tickTimes ?h) =>
               solve [eapply Forall_impl; [|exact Hq]; cbn beta; intros;
                      unfold Second in *; lia]
           end.
  all: try (destruct Hl; discriminate).
  destruct Hph as (_ & Hh & _). rewrite Hh. constructor.
Qed.

Lemma spacing_reachable st : reachable w mip mport mapi sip st -> spacing_ok st.
Proof.
  apply reachable_ind; [split; [exact I | reflexivity]|].
  intros a s s' Hr. apply spacing_step.
  apply (Inv_reachable w mip mport mapi sip). exact Hr.
Qed.

Lemma spaced_pairs (times : list Z) :
  spaced times ->
  forall earlier t1 t2 later,
    times = (later ++ t2 :: t1 :: earlier)%list -> t1 + 15 * Second <= t2.
Proof.
  intros Hs earlier t1 t2 later. revert times Hs.
  induction later as [|t later IH]; intros times Hs Heq; subst; simpl in Hs.
  - apply Hs.
  - destruct Hs as [_ Hs]. exact (IH _ Hs eq_refl).
Qed.

(** ** The polling interval *)

(** X12.  In every run two successive calls of [isSlaveRegistered] begin
    at least 15 seconds apart: the loop never polls more often than that,
    however fast the answers come. *)
Theorem polls_are_15_seconds_apart :
  forall st,
    reachable w mip mport mapi sip st ->
    forall later t2 t1 earlier,
      tickTimes (history st) = (later ++ t2 :: t1 :: earlier)%list ->
      t1 + 15 * Second <= t2.
Proof.
  intros st Hr later t2 t1 earlier Heq.
  destruct (spacing_reachable st Hr) as [Hs _].
  exact (spaced_pairs _ Hs earlier t1 t2 later Heq).
Qed.

End Polling.

Lemma polls_are_15_seconds_apart_witness :
  tickTimes (history Examples.secondPollState)
  = ([] ++ 15 * Second :: 0 :: [])%list
  /\ 0 + 15 * Second <= 15 * Second.
Proof.
  split; [vm_compute; reflexivity|].
  refine (polls_are_15_seconds_apart
            Examples.leaderAtOnce Examples.mip Examples.mport Examples.mapi
            Examples.target Examples.secondPollState _
            [] (15 * Second) 0 [] _).
  - exists Examples.idleSupervisorRun. vm_compute. reflexivity.
  - vm_compute. reflexivity.
Defined.

(** ** The requests of a run *)

Section Requests.

Variable w : World.
Variables mip mport mapi sip : string.

Lemma posts_queryMesosState (url : string) : posts w (queryMesosState url).
Proof.
  unfold queryMesosState. cbn. unfold newRequest.
  destruct (rejectsURL w url); cbn; [exact I|].
  split; [split; reflexivity|]. intros [[status [|s]]|err]; cbn; exact I.
Qed.

Lemma posts_bind {A B : Type} (p : Prog A) (f : A -> Prog B) :
  posts w p -> (forall a, posts w (f a)) -> posts w (bind p f).
Proof.
  induction p as [a|x|c|o k IH|m u b k IH|req k IH]; simpl; intros Hp Hf; auto.
  destruct Hp as [Hq Hk]. split; auto.
Qed.

Lemma posts_isSlaveRegistered (hp api ip : string) :
  posts w (isSlaveRegistered hp api ip).
Proof.
  unfold isSlaveRegistered.
  apply posts_bind; [apply posts_queryMesosState|].
  intros [[s|] [e|]]; cbn -[queryMesosState]; auto.
  destruct (isFollowerView s); cbn -[queryMesosState]; auto.
  unfold index. destruct (nth_error (Split (Leader s) at_sign) 1) as [hp'|];
    cbn -[queryMesosState]; auto.
  apply posts_bind; [apply posts_queryMesosState|].
  intros [[s2|] e2]; simpl; auto.
Qed.

Lemma posts_step a st st' :
  posts_ok w st -> step w mip mport mapi sip a st = Some st' -> posts_ok w st'.
Proof.
  unfold posts_ok. intros [HF HP] H.
  destruct st as [nw pr nt sc dc tm lp sp h]. sys_simpl.
  destruct a; step_cases H; cbn [posts say send sent] in *;
    try discriminate; try (split; [assumption|]); auto.
  - apply posts_isSlaveRegistered.
  - destruct HP as [Hq Hk]. split; [|exact Hk].
    apply Forall_app. split; [assumption | constructor; [assumption|constructor]].
Qed.

Lemma posts_reachable st : reachable w mip mport mapi sip st -> posts_ok w st.
Proof.
  apply reachable_ind; [split; [constructor | exact I]|].
  intros a s s' _. apply posts_step.
Qed.

Lemma load_step a st st' :
  load_ok st -> step w mip mport mapi sip a st = Some st' -> load_ok st'.
Proof.
  unfold load_ok. intros (m & Hm & Hb & Hlen) H.
  destruct st as [nw pr nt sc dc tm lp sp h]. sys_simpl.
  destruct a; step_cases H; rewrite ?count_cons;
    cbn [isTickStarted isIssued atMost say send sent] in *;
    try discriminate.
  all: try (exists m; repeat split; solve [auto | lia]).
  all: try (exists 0%nat; repeat split; solve [auto | lia]).
  - exists 2%nat. repeat split; [lia | apply atMost_isSlaveRegistered | assumption].
  - destruct m as [|m']; [contradiction|]. exists m'.
    split; [lia|]. split; [exact Hb|]. rewrite length_app. simpl. lia.
Qed.

Lemma load_reachable st : reachable w mip mport mapi sip st -> load_ok st.
Proof.
  apply reachable_ind.
  - exists 0%nat. split; [cbn; lia|]. split; [exact I | reflexivity].
  - intros a s s' _. apply load_step.
Qed.

(** X13.  Every request the process has handed to [client.Do], in any
    run, has the verb POST and an empty body, whatever the answers were.
    (The requests the client sends by itself inside [client.Do], when it
    follows a redirect, are not covered.) *)
Theorem every_client_do_request_is_an_empty_post :
  forall st,
    reachable w mip mport mapi sip st ->
    Forall isPost (sent (net st)).
Proof. intros st Hr. exact (proj1 (posts_reachable st Hr)). Qed.

(** X14.  The calls of [client.Do] are bounded by the polling: at any
    point of any run their number is at most twice the number of calls of
    [isSlaveRegistered] begun, and each of them is on record as issued. *)
Theorem at_most_two_client_do_calls_per_poll :
  forall st,
    reachable w mip mport mapi sip st ->
    (length (sent (net st)) <= 2 * count isTickStarted (history st))%nat
    /\ length (sent (net st)) = count isIssued (history st).
Proof.
  intros st Hr. destruct (load_reachable st Hr) as (m & Hm & _ & Hlen).
  split; [lia | exact Hlen].
Qed.


End Requests.

Lemma every_client_do_request_is_an_empty_post_witness :
  Forall isPost (sent (net Examples.successState)).
Proof.
  refine (every_client_do_request_is_an_empty_post
            Examples.followerThenLeader Examples.mip Examples.mport
            Examples.mapi Examples.target Examples.successState _).
  exists Examples.successRun. vm_compute. reflexivity.
Defined.

Lemma at_most_two_client_do_calls_per_poll_witness :
  (length (sent (net Examples.successState))
   <= 2 * count isTickStarted (history Examples.successState))%nat
  /\ length (sent (net Examples.successState))
     = count isIssued (history Examples.successState).
Proof.
  refine (at_most_two_client_do_calls_per_poll
            Examples.followerThenLeader Examples.mip Examples.mport
            Examples.mapi Examples.target Examples.successState _).
  exists Examples.successRun. vm_compute. reflexivity.
Defined.

(** ** The console *)

Section Console.

Variable w : World.
Variables mip mport mapi sip : string.










End Console.


(** * Errors and the stop signal, over all interleavings *)

(** ** The call in progress *)


(** Nothing moves once the process has ended. *)
Lemma dead_exec (w : World) (mip mport mapi sip : string) (schedule : list Action)
    (st st' : Sys) :
  proc st <> Running ->
  exec w mip mport mapi sip schedule st = Some st' -> st' = st.
Proof.
  intros Hd H. destruct schedule as [|a rest]; simpl in H.
  - inversion H. reflexivity.
  - unfold step in H. destruct (proc st); [contradiction | discriminate..].
Qed.

Section Calls.

Variable w : World.
Variables mip mport mapi sip : string.

(** The call in progress runs to the end the world has in store for it. *)
Lemma call_runs st o :
  proc st = Running -> callOutcome w mip mport mapi sip st = Some o ->
  exists st',
    exec w mip mport mapi sip (callSchedule w mip mport mapi sip st) st = Some st'
    /\ afterCall o st' /\ sameOutside st st'.
Proof.
  destruct st as [nw pr nt sc dc tm lp sp h]. unfold callOutcome, callSchedule.
  cbn [proc loop net]. intros Hp Ho. subst pr.
  destruct lp as [| |p|n req k| | |dl| |e|]; try discriminate;
    inversion Ho; subst o; clear Ho.
  - destruct (tick_runs w mip mport mapi sip
                (isSlaveRegistered (mesosHostPort mip mport) mapi sip)
                (Build_Sys nw Running nt sc dc tm
                   (LRun (isSlaveRegistered (mesosHostPort mip mport) mapi sip))
                   sp ((nw, TickStarted) :: h))
                eq_refl eq_refl) as (st' & He & _ & Ha & Hs).
    exists st'. split; [exact He|]. split; [exact Ha | exact Hs].
  - destruct (tick_runs w mip mport mapi sip p
                (Build_Sys nw Running nt sc dc tm (LRun p) sp h)
                eq_refl eq_refl) as (st' & He & _ & Ha & Hs).
    exists st'. split; [exact He|]. split; [exact Ha | exact Hs].
  - destruct (tick_runs w mip mport mapi sip (k (roundTrip w n req))
                (Build_Sys nw Running nt sc dc tm
                   (LRun (k (roundTrip w n req))) sp h)
                eq_refl eq_refl) as (st' & He & _ & Ha & Hs).
    exists st'. split; [exact He|]. split; [exact Ha | exact Hs].
Qed.



End Calls.

(** ** The loop once the stop signal is sent *)

Section Stops.

Variable w : World.
Variables mip mport mapi sip : string.

(** The record of a run only grows. *)
Lemma signalled_step a st st' :
  step w mip mport mapi sip a st = Some st' ->
  (1 <= count isSignalled (history st))%nat ->
  (1 <= count isSignalled (history st'))%nat.
Proof.
  intros H Hn. destruct st as [nw pr nt sc dc tm lp sp h]. sys_simpl.
  destruct a; step_cases H; rewrite ?count_cons; cbn [isSignalled];
    try discriminate; lia.
Qed.

Lemma signalled_exec schedule : forall st st',
  exec w mip mport mapi sip schedule st = Some st' ->
  (1 <= count isSignalled (history st))%nat ->
  (1 <= count isSignalled (history st'))%nat.
Proof.
  induction schedule as [|a rest IH]; intros st st' H Hn; simpl in H.
  - inversion H; subst. exact Hn.
  - destruct (step w mip mport mapi sip a st) as [st1|] eqn:H1; [|discriminate].
    exact (IH st1 st' H (signalled_step a st st1 H1 Hn)).
Qed.

(** The stop signal is on record exactly when the supervisor is past line
    186. *)
Lemma signalled_sup st :
  Inv st -> (1 <= count isSignalled (history st))%nat ->
  exists b, sup st = SClose b \/ sup st = SReturned b.
Proof.
  intros [_ _ _ _ Hph _ _] Hn. unfold phase_ok in Hph.
  destruct (sup st) as [| |dl|c|b|b|b].
  - destruct Hph as (_ & Hh & _). rewrite Hh in Hn. unfold count in Hn.
    simpl in Hn. lia.
  - destruct Hph as (_ & _ & _ & Hz & _). lia.
  - destruct Hph as (_ & _ & _ & _ & Hz & _). lia.
  - destruct Hph as (dl & _ & _ & _ & _ & _ & Hz & _). lia.
  - destruct Hph as (dl & _ & _ & _ & _ & Hz & _). lia.
  - exists b. left. reflexivity.
  - exists b. right. reflexivity.
Qed.

(** Once the supervisor is past its select nobody receives from the result
    channel: a loop that finds it full at line 146 stays there whatever
    happens next, and the channel stays open. *)
Lemma blocked_after_signal schedule : forall st st',
  exec w mip mport mapi sip schedule st = Some st' ->
  loop st = LSend ->
  (exists b, sup st = SClose b \/ sup st = SReturned b) ->
  closed (stateChan st) = false ->
  room (stateChan st) = false ->
  loop st' = LSend /\ closed (stateChan st') = false.
Proof.
  induction schedule as [|a rest IH]; intros st st' H Hl Hs Hcl Hroom; simpl in H.
  - inversion H; subst. auto.
  - destruct (step w mip mport mapi sip a st) as [st1|] eqn:Hstep; [|discriminate].
    assert (Hkeep : loop st1 = LSend
                    /\ (exists b, sup st1 = SClose b \/ sup st1 = SReturned b)
                    /\ stateChan st1 = stateChan st).
    { destruct st as [nw pr nt sc dc tm lp sp h]. unfold room in Hroom.
      sys_simpl. subst lp. destruct Hs as (b & [Hs|Hs]); subst sp;
        destruct a; step_cases Hstep; try discriminate; try congruence;
        repeat split; eauto. }
    destruct Hkeep as (Hl1 & Hs1 & Hc1).
    apply (IH st1 st' H Hl1 Hs1); rewrite Hc1; assumption.
Qed.

(** With the signal sent, a loop at its select takes it, closes the output
    channel and returns, without a further request. *)
Lemma way_out st :
  reachable w mip mport mapi sip st -> proc st = Running ->
  (1 <= count isSignalled (history st))%nat ->
  match loop st with
  | LSelect =>
      exists st', exec w mip mport mapi sip wayOut st = Some st'
                  /\ proc st' = Running /\ loop st' = LReturned
                  /\ closed (stateChan st') = true
  | LDone =>
      exists st', exec w mip mport mapi sip [StepLoop; StepLoop] st = Some st'
                  /\ proc st' = Running /\ loop st' = LReturned
                  /\ closed (stateChan st') = true
  | LCheck _ =>
      exists st', exec w mip mport mapi sip [StepLoop] st = Some st'
                  /\ proc st' = Running /\ loop st' = LReturned
                  /\ closed (stateChan st') = true
  | LReturned => closed (stateChan st) = true
  | _ => True
  end.
Proof.
  assert (Hret : forall s, reachable w mip mport mapi sip s ->
                           loop s = LReturned -> closed (stateChan s) = true).
  { intros s Hr Hl. destruct (Inv_reachable w mip mport mapi sip s Hr)
      as [_ _ _ _ _ Hlo _]. unfold loop_ok in Hlo. rewrite Hl in Hlo. exact Hlo. }
  assert (Hcheck : forall s, reachable w mip mport mapi sip s -> proc s = Running ->
            (exists e, loop s = LCheck e) ->
            exists st', exec w mip mport mapi sip [StepLoop] s = Some st'
                        /\ proc st' = Running /\ loop st' = LReturned
                        /\ closed (stateChan st') = true).
  { intros s Hr Hrun [e Hl].
    pose proof (loop_moves w mip mport mapi sip s
                  (Inv_reachable w mip mport mapi sip s Hr) Hrun) as H.
    rewrite Hl in H. destruct H as (s1 & H1 & Hr1 & Hl1 & _).
    exists s1. simpl. rewrite H1. repeat split; auto.
    apply Hret; [|exact Hl1].
    apply (reachable_exec w mip mport mapi sip [StepLoop] s s1 Hr).
    simpl. rewrite H1. reflexivity. }
  assert (Hdone : forall s, reachable w mip mport mapi sip s -> proc s = Running ->
            loop s = LDone ->
            exists st', exec w mip mport mapi sip [StepLoop; StepLoop] s = Some st'
                        /\ proc st' = Running /\ loop st' = LReturned
                        /\ closed (stateChan st') = true).
  { intros s Hr Hrun Hl.
    pose proof (loop_moves w mip mport mapi sip s
                  (Inv_reachable w mip mport mapi sip s Hr) Hrun) as H.
    rewrite Hl in H. destruct H as (s1 & H1 & Hr1 & Hl1 & _).
    assert (Hreach1 : reachable w mip mport mapi sip s1).
    { apply (reachable_exec w mip mport mapi sip [StepLoop] s s1 Hr).
      simpl. rewrite H1. reflexivity. }
    destruct (Hcheck s1 Hreach1 Hr1 (ex_intro _ true Hl1)) as (s2 & H2 & Hrest).
    exists s2. simpl in *. rewrite H1. split; [exact H2 | exact Hrest]. }
  intros Hr Hrun Hn. destruct (loop st) eqn:Hl; try exact I.
  - (* LSelect *)
    pose proof (Inv_reachable w mip mport mapi sip st Hr) as HI.
    pose proof (loop_moves w mip mport mapi sip st HI Hrun) as H.
    rewrite Hl in H. destruct H as (s1 & H1 & Hr1 & _ & Hl1).
    destruct (signalled_loop st HI Hn) as [_ [Hst|Hready]];
      [rewrite Hl in Hst; discriminate|].
    rewrite Hready in Hl1.
    assert (Hreach1 : reachable w mip mport mapi sip s1).
    { apply (reachable_exec w mip mport mapi sip [StepLoop] st s1 Hr).
      simpl. rewrite H1. reflexivity. }
    destruct (Hdone s1 Hreach1 Hr1 Hl1) as (s2 & H2 & Hrest).
    exists s2. unfold wayOut. simpl in *. rewrite H1. split; [exact H2 | exact Hrest].
  - apply Hdone; assumption.
  - apply Hcheck; eauto.
  - apply Hret; assumption.
Qed.

Lemma send_or_block st :
  reachable w mip mport mapi sip st -> proc st = Running ->
  (1 <= count isSignalled (history st))%nat ->
  loop st = LSend ->
  exists st',
    exec w mip mport mapi sip
      (afterCallSteps (room (stateChan st)) (Returned true)) st = Some st'
    /\ loopEnded w mip mport mapi sip
         (fateOf (room (stateChan st)) (Returned true)) st'.
Proof.
  intros Hr Hrun Hn Hl.
  pose proof (Inv_reachable w mip mport mapi sip st Hr) as HI.
  assert (Hopen : closed (stateChan st) = false).
  { destruct HI as [_ _ _ _ _ Hlo _]. unfold loop_ok in Hlo.
    rewrite Hl in Hlo. exact Hlo. }
  cbn [afterCallSteps fateOf]. destruct (room (stateChan st)) eqn:Hroom.
  - assert (Hbuf : buf (stateChan st) = []).
    { destruct (signalled_sup st HI Hn) as (b & Hs).
      destruct HI as [_ _ Hcap _ _ _ _].
      destruct Hcap as [Hc _]; [destruct Hs as [Hs|Hs]; rewrite Hs; discriminate|].
      unfold room in Hroom. rewrite Hc in Hroom.
      destruct (buf (stateChan st)); [reflexivity | discriminate]. }
    pose proof (loop_moves w mip mport mapi sip st HI Hrun) as H.
    rewrite Hl in H. destruct (H Hbuf) as (s1 & H1 & Hr1 & Hl1 & _).
    assert (He1 : exec w mip mport mapi sip [StepLoop] st = Some s1)
      by (simpl; rewrite H1; reflexivity).
    pose proof (way_out s1 (reachable_exec w mip mport mapi sip _ _ _ Hr He1) Hr1
                  (signalled_exec _ _ _ He1 Hn)) as Hw.
    rewrite Hl1 in Hw. destruct Hw as (s2 & H2 & Hrest).
    exists s2. split; [|exact Hrest].
    change (StepLoop :: wayOut) with ([StepLoop] ++ wayOut)%list.
    rewrite exec_app, He1. exact H2.
  - exists st. split; [reflexivity|]. split; [exact Hrun|].
    intros schedule st' He.
    apply (blocked_after_signal schedule st st' He Hl
             (signalled_sup st HI Hn) Hopen Hroom).
Qed.

(** Where the stop signal leaves the loop: it runs on, by its own
    statements, to the end its fate names. *)
Lemma loop_runs_out st :
  reachable w mip mport mapi sip st -> proc st = Running ->
  (1 <= count isSignalled (history st))%nat ->
  exists st',
    exec w mip mport mapi sip (loopRemaining w mip mport mapi sip st) st = Some st'
    /\ loopEnded w mip mport mapi sip (loopFate w mip mport mapi sip st) st'.
Proof.
  intros Hr Hrun Hn.
  pose proof (Inv_reachable w mip mport mapi sip st Hr) as HI.
  unfold loopRemaining, loopFate.
  destruct (callOutcome w mip mport mapi sip st) as [o|] eqn:Ho.
  - destruct (call_runs w mip mport mapi sip st o Hrun Ho)
      as (s1 & He1 & Ha & (_ & _ & _ & Hsc & _)).
    pose proof (reachable_exec w mip mport mapi sip _ _ _ Hr He1) as Hr1.
    pose proof (signalled_exec _ _ _ He1 Hn) as Hn1.
    assert (Hopen : closed (stateChan st) = false).
    { destruct HI as [_ _ _ _ _ Hlo _]. unfold loop_ok in Hlo.
      unfold callOutcome in Ho. destruct (loop st); try discriminate; exact Hlo. }
    rewrite exec_app, He1. rewrite <- Hsc.
    destruct o as [[|]|x|c]; cbn [afterCall] in Ha.
    + destruct Ha as [Hrun1 Hl1]. exact (send_or_block s1 Hr1 Hrun1 Hn1 Hl1).
    + destruct Ha as [Hrun1 Hl1]. cbn [afterCallSteps fateOf].
      pose proof (way_out s1 Hr1 Hrun1 Hn1) as Hw. rewrite Hl1 in Hw.
      destruct Hw as (s2 & H2 & Hrest). exists s2. split; [exact H2 | exact Hrest].
    + cbn [afterCallSteps fateOf]. exists s1. split; [reflexivity|].
      split; [rewrite Ha; discriminate|]. intros schedule st' He.
      rewrite (dead_exec w mip mport mapi sip schedule s1 st'); 
        [rewrite Hsc; exact Hopen | rewrite Ha; discriminate | exact He].
    + cbn [afterCallSteps fateOf]. exists s1. split; [reflexivity|].
      split; [rewrite Ha; discriminate|]. intros schedule st' He.
      rewrite (dead_exec w mip mport mapi sip schedule s1 st'); 
        [rewrite Hsc; exact Hopen | rewrite Ha; discriminate | exact He].
  - pose proof (way_out st Hr Hrun Hn) as Hw.
    destruct (signalled_loop st HI Hn) as [Hpk _].
    unfold callOutcome in Ho.
    destruct (loop st) eqn:Hl; try discriminate.
    + (* LNotStarted *)
      destruct HI as [_ _ _ _ _ Hlo _]. unfold loop_ok in Hlo. rewrite Hl in Hlo.
      destruct Hlo as [Hs _]. destruct (signalled_sup st
        (Inv_reachable w mip mport mapi sip st Hr) Hn) as (b & [Hb|Hb]);
        rewrite Hs in Hb; discriminate.
    + (* LSend *) exact (send_or_block st Hr Hrun Hn Hl).
    + (* LSelect *) exact Hw.
    + (* LDone *) exact Hw.
    + (* LCheck *) exact Hw.
    + (* LReturned *) exists st. split; [reflexivity|].
      split; [exact Hrun|]. split; [exact Hl | exact Hw].
Qed.

End Stops.

(** ** Errors of a tick, in every run *)




(** ** After the stop signal, to the end *)

(** C6, amended.  Once the stop signal has been sent the loop starts at
    most one more call of [isSlaveRegistered] (none when it was blocked in
    its select or inside a call) and calls [client.Do] at most twice more,
    for the call in progress; it is never again blocked in its select.  The
    signal is looked for only at the select of lines 148-159: the send of
    the signal releases a loop that is blocked there at that very instant
    and leaves any other loop, in particular one with a request pending,
    where it is; a loop at the select with the signal ready takes it, and
    then closes the output channel without a further request.  What the
    loop comes to in the end is fixed by how the call in progress ends and
    by the result channel ([loopFate]), and its own statements take it
    there ([loopRemaining]): when the call returns false, or returns true
    and the result channel has room, the loop comes to its select, takes
    the signal, closes the output channel and returns; when the call ends
    the process, or returns true while the result channel is full (the
    supervisor reads it no more), the output channel is not closed and
    stays open whatever happens next, the process being dead or the loop
    blocked for good in the send of line 146.  There is no bound of 15
    seconds on any of this. *)
Theorem stopped_loop_ends_as_its_call_ends :
  forall (w : World) (mip mport mapi sip : string) (st : Sys),
    reachable w mip mport mapi sip st ->
    (forall since, sinceSignal (history st) = Some since ->
                   (count isTickStarted since <= 1)%nat
                   /\ (count isIssued since <= 2)%nat
                   /\ parked (loop st) = false
                   /\ (stopping (loop st) = true \/ ready (doneChan st) = true))
    /\ (proc st = Running -> forall b, sup st = SSignal b ->
        exists st', step w mip mport mapi sip StepSup st = Some st'
                    /\ In (now st, Signalled) (history st')
                    /\ match loop st with
                       | LParked _ =>
                           loop st' = LDone
                           /\ In (now st, LoopWoke true) (history st')
                       | l => loop st' = l
                       end)
    /\ (proc st = Running -> loop st = LSelect -> ready (doneChan st) = true ->
        exists st', step w mip mport mapi sip StepLoop st = Some st'
                    /\ loop st' = LDone
                    /\ sent (net st') = sent (net st))
    /\ (proc st = Running -> loop st = LDone ->
        exists st', step w mip mport mapi sip StepLoop st = Some st'
                    /\ closed (stateChan st') = true
                    /\ sent (net st') = sent (net st)
                    /\ In (now st, OutClosed) (history st'))
    /\ (proc st = Running -> (1 <= count isSignalled (history st))%nat ->
        exists st',
          exec w mip mport mapi sip (loopRemaining w mip mport mapi sip st) st
          = Some st'
          /\ loopEnded w mip mport mapi sip (loopFate w mip mport mapi sip st) st').
Proof.
  intros w mip mport mapi sip st Hr.
  pose proof (Inv_reachable w mip mport mapi sip st Hr) as HI.
  split; [|split; [|split; [|split]]].
  - intros since Hsince.
    pose proof (afterSignal_reachable w mip mport mapi sip st Hr) as HA.
    unfold afterSignal_ok in HA. rewrite Hsince in HA.
    destruct HA as (Ht & _ & m & Hm & _).
    destruct (signalled_loop st HI (sinceSignal_some _ _ Hsince)) as [Hp Hor].
    repeat split; auto. lia.
  - intros Hrun b Hs. exact (signal_step w mip mport mapi sip st b HI Hrun Hs).
  - intros Hrun Hl Hready.
    pose proof (loop_moves w mip mport mapi sip st HI Hrun) as H.
    rewrite Hl, Hready in H. destruct H as (st' & H1 & _ & Hsent & Hl1). eauto.
  - intros Hrun Hl.
    pose proof (loop_moves w mip mport mapi sip st HI Hrun) as H.
    rewrite Hl in H. destruct H as (st' & H1 & _ & _ & Hcl & Hsent & Hin). eauto 6.
  - intros Hrun Hn. exact (loop_runs_out w mip mport mapi sip st Hr Hrun Hn).
Qed.

Lemma stopped_loop_witness :
  exists st',
    exec Examples.followerThenLeader Examples.mip Examples.mport Examples.mapi Examples.target
      (loopRemaining Examples.followerThenLeader Examples.mip Examples.mport Examples.mapi Examples.target
         Examples.signalMidRequestState)
      Examples.signalMidRequestState
    = Some st'
    /\ loopEnded Examples.followerThenLeader Examples.mip Examples.mport Examples.mapi Examples.target
         (loopFate Examples.followerThenLeader Examples.mip Examples.mport Examples.mapi Examples.target
            Examples.signalMidRequestState)
         st'.
Proof.
  refine (proj2 (proj2 (proj2 (proj2
            (stopped_loop_ends_as_its_call_ends
               Examples.followerThenLeader Examples.mip Examples.mport Examples.mapi Examples.target
               Examples.signalMidRequestState _)))) _ _).
  - exists Examples.signalMidRequestRun. vm_compute. reflexivity.
  - vm_compute. reflexivity.
  - vm_compute. lia.
Defined.

(** The end need not be the closing of the output.  In this run the match
    of the first tick still lies in the result channel (the supervisor had
    timed out) when the stop signal is sent, the request of the second tick
    pending: that tick finds the match again, and the loop blocks in the
    send of line 146 with two statements to go. *)
Lemma stopped_loop_can_block_for_good :
  match Examples.runFrom Examples.leaderAtOnce Examples.signalOnFullBufferRun with
  | Some st =>
      count isSignalled (history st) = 1%nat
      /\ buf (stateChan st) = [true]
      /\ loopFate Examples.leaderAtOnce Examples.mip Examples.mport Examples.mapi Examples.target st = Blocks
      /\ loopRemaining Examples.leaderAtOnce Examples.mip Examples.mport Examples.mapi Examples.target st
         = [Arrive; StepLoop; StepLoop]
  | None => False
  end.
Proof. vm_compute. repeat split. Qed.
